(** * MueLu::BlockedGaussSeidelSmoother: a shallow embedding

    Source: packages/muelu/src/Smoothers/BlockedSmoothers/
            MueLu_BlockedGaussSeidelSmoother_def.hpp

    The class is a template over [Scalar]; the development is therefore
    parametric in a scalar type that offers what the source asks of
    [Teuchos::ScalarTraits] (zero, one) and of the vector kernels (sum,
    product, the literal [-1.0]).  Algebraic laws are never assumed
    globally: a theorem that needs one carries [ScalarLaws] as a
    hypothesis, and is instantiated at [Z] further down. *)

From Stdlib Require Import ZArith List Bool Lia.
From stdpp Require Import base list.
Import ListNotations.

Local Open Scope Z_scope.
Local Open Scope nat_scope.

(** ** Scalars *)

Class ScalarTraits (SC : Type) : Type := {
  zero : SC;
  one : SC;
  plus : SC -> SC -> SC;
  times : SC -> SC -> SC;
  negate : SC -> SC
}.

Class ScalarLaws (SC : Type) `{ScalarTraits SC} : Prop := {
  plus_zero_l : forall a : SC, plus zero a = a;
  plus_zero_r : forall a : SC, plus a zero = a;
  times_zero_l : forall a : SC, times zero a = zero;
  times_one_l : forall a : SC, times one a = a
}.

#[export] Instance ScalarTraits_Z : ScalarTraits Z :=
  {| zero := 0%Z; one := 1%Z; plus := Z.add; times := Z.mul; negate := Z.opp |}.

#[export] Instance ScalarLaws_Z : ScalarLaws Z :=
  {| plus_zero_l := Z.add_0_l; plus_zero_r := Z.add_0_r;
     times_zero_l := Z.mul_0_l; times_one_l := Z.mul_1_l |}.

(** ** Vectors

    The entries of an ordinary (multi)vector are a list; a
    [BlockedMultiVector] is the list [vv_] of its sub-vectors.  A nested
    sub-vector is represented by its entries in leaf order: the smoother
    never looks inside a block, it only hands it to the sub-smoother of
    that block row. *)

Abbreviation Vec SC := (list SC) (only parsing).

Section Vectors.
Context {SC : Type} `{ScalarTraits SC}.

(** [this->putScalar(c)] *)
Definition putScalar (c : SC) (this : Vec SC) : Vec SC :=
  map (fun _ => c) this.

(** [this->update(alpha, A, beta)]: [this = alpha*A + beta*this].
    The storage that is written is the one of [this], so the result has
    the length of [this]; an entry [A] lacks is read as zero (the source
    only ever combines vectors built over the same map). *)
Fixpoint update (alpha : SC) (A : Vec SC) (beta : SC) (this : Vec SC)
    : Vec SC :=
  match this with
  | [] => []
  | t :: this' =>
      plus (times alpha (hd zero A)) (times beta t)
        :: update alpha (tl A) beta this'
  end.

(** The same two operations on a blocked multivector, block by block. *)
Definition putScalar_blocks (c : SC) (this : list (Vec SC))
    : list (Vec SC) :=
  map (putScalar c) this.

Fixpoint update_blocks (alpha : SC) (A : list (Vec SC)) (beta : SC)
    (this : list (Vec SC)) : list (Vec SC) :=
  match this with
  | [] => []
  | t :: this' =>
      update alpha (hd [] A) beta t :: update_blocks alpha (tl A) beta this'
  end.

(** A caller's vector: flat, or already block-partitioned
    ([rcp_dynamic_cast<BlockedMultiVector>] succeeds on the second). *)
Inductive MultiVector : Type :=
| FlatMV (v : Vec SC)
| BlockedMV (vv : list (Vec SC)).

End Vectors.

Arguments MultiVector SC : clear implicits.

(** ** Partition descriptors

    Modelled from the spec: the Block Partition Descriptor
    ([Xpetra::MapExtractor] / [BlockedMap], whose headers are not among
    the sources).  Block [i] owns the positions [maps !! i] of the full
    index space of size [fullSize]; extraction reads those positions,
    insertion writes them back.  The Thyra mode only renumbers the
    indices of an extracted sub-vector and never its entries, so it is
    carried along but not interpreted. *)

Record MapExtractor : Type := {
  fullSize : nat;
  maps : list (list nat);
  getThyraMode : bool
}.

Definition NumMaps (me : MapExtractor) : nat := length (maps me).

Section Partition.
Context {SC : Type} `{ScalarTraits SC}.

(** [ExtractVector(full, block)] on an ordinary vector.  (On a blocked
    multivector it hands out the sub-vector of that block itself, which is
    how the sweep comes to update [X] in place.) *)
Definition ExtractVector (me : MapExtractor) (full : Vec SC) (block : nat)
    : Vec SC :=
  map (fun g => default zero (full !! g)) (default [] (maps me !! block)).

(** [getVector(i, numVectors, bThyraMode)]: a fresh zero vector over the
    map of block [i] *)
Definition getVector (me : MapExtractor) (i : nat) : Vec SC :=
  replicate (length (default [] (maps me !! i))) zero.

(** [BlockedMultiVector(bmap, v)]: one extracted sub-vector per map *)
Definition BlockedMultiVector_ctor (me : MapExtractor) (v : Vec SC)
    : list (Vec SC) :=
  map (ExtractVector me v) (seq 0 (NumMaps me)).

(** [InsertVector(partial, block, full)] *)
Fixpoint InsertVector (partial : Vec SC) (m : list nat) (full : Vec SC)
    : Vec SC :=
  match m with
  | [] => full
  | g :: m' => InsertVector (tl partial) m' (<[g := hd zero partial]> full)
  end.

Fixpoint Merge_from (ms : list (list nat)) (vv : list (Vec SC))
    (full : Vec SC) : Vec SC :=
  match ms with
  | [] => full
  | m :: ms' => Merge_from ms' (tl vv) (InsertVector (hd [] vv) m full)
  end.

(** [bX->Merge()]: a fresh vector over the full map, filled block by block *)
Definition Merge (me : MapExtractor) (vv : list (Vec SC)) : Vec SC :=
  Merge_from (maps me) vv (replicate (fullSize me) zero).

End Partition.

(** The descriptor partitions a full space of [n] entries when every
    position below [n] belongs to some block. *)
Definition covers (ks : list nat) (n : nat) : bool :=
  forallb (fun p => existsb (Nat.eqb p) ks) (seq 0 n).

Definition partitions (me : MapExtractor) (n : nat) : bool :=
  Nat.eqb (fullSize me) n && covers (concat (maps me)) n.

(** ** Reordering plans

    Modelled from the spec: the Reordering Plan
    ([Xpetra::BlockReorderManager], not among the sources) is a tree whose
    leaves name native blocks.  The top-level block [i] of a reordered
    vector is a view of the native sub-vectors named by the leaves of the
    [i]-th child; re-partitioning moves no entry. *)

#[local] Set Warnings "-register-all".

Inductive BlockReorderManager : Type :=
| BlockReorderLeaf (index : nat)
| BlockReorderNode (children : list BlockReorderManager).

Fixpoint brm_leaves (brm : BlockReorderManager) : list nat :=
  match brm with
  | BlockReorderLeaf k => [k]
  | BlockReorderNode cs => concat (map brm_leaves cs)
  end.

(** One group of native block indices per top-level block. *)
Definition brm_groups (brm : BlockReorderManager) : list (list nat) :=
  match brm with
  | BlockReorderLeaf k => [[k]]
  | BlockReorderNode cs => map brm_leaves cs
  end.

(** Without reordering, top-level block [k] is sub-vector [k]. *)
Definition plain_groups (n : nat) : list (list nat) :=
  map (fun k => [k]) (seq 0 n).

Section Views.
Context {SC : Type} `{ScalarTraits SC}.

(** What a top-level block shows of the storage [st]. *)
Definition view_block (st : list (Vec SC)) (g : list nat) : Vec SC :=
  concat (map (fun k => default [] (st !! k)) g).

Definition view_blocks (groups : list (list nat)) (st : list (Vec SC))
    : list (Vec SC) :=
  map (view_block st) groups.

(** [putScalar] through a view: every sub-vector it names is overwritten. *)
Fixpoint view_putScalar (c : SC) (g : list nat) (st : list (Vec SC))
    : list (Vec SC) :=
  match g with
  | [] => st
  | k :: g' => view_putScalar c g' (alter (putScalar c) k st)
  end.

(** [Xi->update(omega, tXi, 1.0)] through a view: the sub-vectors of the
    block are updated in place, one after the other, each against its own
    segment of [A]. *)
Fixpoint view_update (omega : SC) (A : Vec SC) (g : list nat)
    (st : list (Vec SC)) : list (Vec SC) :=
  match g with
  | [] => st
  | k :: g' =>
      let xk := default [] (st !! k) in
      view_update omega (drop (length xk) A) g'
        (<[k := update omega A one xk]> st)
  end.

End Views.

(** ** The collaborators of the smoother *)

Section Smoother.
Context {SC : Type} `{ScalarTraits SC}.

(** What [rbA->getBlockedCrsMatrix()] and [rbA->getBlockReorderManager()]
    give for a [ReorderedBlockedCrsMatrix]: the blocked maps of the
    underlying operator and the plan. *)
Record ReorderedInfo : Type := {
  getBlockReorderManager : BlockReorderManager;
  native_BlockedRangeMap : MapExtractor;
  native_BlockedDomainMap : MapExtractor
}.

(** A [BlockedCrsMatrix].  [getMatrix r c] is the action of block
    [(r, c)], absent when the block is null; [reordered] is set when the
    dynamic cast to [ReorderedBlockedCrsMatrix] succeeds. *)
Record BlockedCrsMatrix : Type := {
  Rows : nat;
  Cols : nat;
  getMatrix : nat -> nat -> option (Vec SC -> Vec SC);
  getRangeMapExtractor : MapExtractor;
  getDomainMapExtractor : MapExtractor;
  reordered : option ReorderedInfo
}.

(** A [Matrix] is a [BlockedCrsMatrix] or it is not. *)
Inductive Matrix : Type :=
| CrsMatrixWrap (apply : Vec SC -> Vec SC)
| BlockedCrs (bA : BlockedCrsMatrix).

(** [rcp_dynamic_cast<BlockedCrsMatrix>] *)
Definition as_BlockedCrsMatrix (A : Matrix) : option BlockedCrsMatrix :=
  match A with
  | CrsMatrixWrap _ => None
  | BlockedCrs bA => Some bA
  end.

(** A sub-smoother: [Apply(X, B, InitialGuessIsZero)] overwrites [X]. *)
Record SmootherBase : Type := {
  smoother_Apply : Vec SC -> Vec SC -> bool -> Vec SC
}.

(** Factories are known by identity only; a null factory pointer is
    [None]. *)
Definition FactoryBase : Type := nat.

Record FactoryManagerBase : Type := {
  GetFactory_Smoother : option FactoryBase;
  GetFactory_A : option FactoryBase
}.

(** Modelled from the spec: the level of the hierarchy ([MueLu::Level], not
    among the sources) answers [Get] with the data a factory generated, and
    raises when it holds none (the spec's DependencyNotReady). *)
Record Level : Type := {
  Level_Get_A : option FactoryBase -> option Matrix;
  Level_Get_PreSmoother : option FactoryBase -> option SmootherBase
}.

(** ** Exceptions and warnings *)

Inductive RuntimeErrorSite : Type :=
| pos_must_not_be_negative
| block_rows_do_not_match (rows subFactoryManagers : nat)
| block_cols_do_not_match (cols subFactoryManagers : nat)
| Setup_has_not_been_called
| A_must_be_a_BlockedCrsMatrix.

(** [Exceptions::RuntimeError] and [Exceptions::BadCast] are raised by the
    source itself; the other two stand for what its collaborators raise:
    a [Level::Get] that finds no data, the dereference of a null [RCP]. *)
Inductive Exception : Type :=
| RuntimeError (site : RuntimeErrorSite)
| BadCast
| Level_data_not_available
| NullReference.

Inductive Warning : Type :=
| cannot_add_at_proper_position (pos : Z)
| Setup_has_already_been_called.

(** ** The smoother object

    The parameter list ([Factory::GetParameterList]), the members of the
    class and the flag of the base class [SmootherPrototype]. *)
Record BlockedGaussSeidelSmoother : Type := {
  param_A : option FactoryBase;
  param_Damping_factor : SC;
  param_Sweeps : Z;
  FactManager_ : list FactoryManagerBase;
  Inverse_ : list SmootherBase;
  bIsBlockedOperator_ : list bool;
  rangeMapExtractor_ : option MapExtractor;
  domainMapExtractor_ : option MapExtractor;
  A_ : option Matrix;
  IsSetup : bool
}.

(** The constructor, with the defaults of [GetValidParameterList]. *)
Definition new_BlockedGaussSeidelSmoother : BlockedGaussSeidelSmoother :=
  {| param_A := None; param_Damping_factor := one; param_Sweeps := 1%Z;
     FactManager_ := []; Inverse_ := []; bIsBlockedOperator_ := [];
     rangeMapExtractor_ := None; domainMapExtractor_ := None;
     A_ := None; IsSetup := false |}.

Definition SetParameters (omega : SC) (nSweeps : Z)
    (s : BlockedGaussSeidelSmoother) : BlockedGaussSeidelSmoother :=
  {| param_A := param_A s; param_Damping_factor := omega;
     param_Sweeps := nSweeps;
     FactManager_ := FactManager_ s; Inverse_ := Inverse_ s;
     bIsBlockedOperator_ := bIsBlockedOperator_ s;
     rangeMapExtractor_ := rangeMapExtractor_ s;
     domainMapExtractor_ := domainMapExtractor_ s;
     A_ := A_ s; IsSetup := IsSetup s |}.

Definition set_FactManager_ (fm : list FactoryManagerBase)
    (s : BlockedGaussSeidelSmoother) : BlockedGaussSeidelSmoother :=
  {| param_A := param_A s; param_Damping_factor := param_Damping_factor s;
     param_Sweeps := param_Sweeps s;
     FactManager_ := fm; Inverse_ := Inverse_ s;
     bIsBlockedOperator_ := bIsBlockedOperator_ s;
     rangeMapExtractor_ := rangeMapExtractor_ s;
     domainMapExtractor_ := domainMapExtractor_ s;
     A_ := A_ s; IsSetup := IsSetup s |}.

Definition set_A_ (A : option Matrix)
    (s : BlockedGaussSeidelSmoother) : BlockedGaussSeidelSmoother :=
  {| param_A := param_A s; param_Damping_factor := param_Damping_factor s;
     param_Sweeps := param_Sweeps s;
     FactManager_ := FactManager_ s; Inverse_ := Inverse_ s;
     bIsBlockedOperator_ := bIsBlockedOperator_ s;
     rangeMapExtractor_ := rangeMapExtractor_ s;
     domainMapExtractor_ := domainMapExtractor_ s;
     A_ := A; IsSetup := IsSetup s |}.

Definition set_MapExtractors (rme dme : option MapExtractor)
    (s : BlockedGaussSeidelSmoother) : BlockedGaussSeidelSmoother :=
  {| param_A := param_A s; param_Damping_factor := param_Damping_factor s;
     param_Sweeps := param_Sweeps s;
     FactManager_ := FactManager_ s; Inverse_ := Inverse_ s;
     bIsBlockedOperator_ := bIsBlockedOperator_ s;
     rangeMapExtractor_ := rme; domainMapExtractor_ := dme;
     A_ := A_ s; IsSetup := IsSetup s |}.

Definition push_back_Inverse_ (Smoo : SmootherBase)
    (s : BlockedGaussSeidelSmoother) : BlockedGaussSeidelSmoother :=
  {| param_A := param_A s; param_Damping_factor := param_Damping_factor s;
     param_Sweeps := param_Sweeps s;
     FactManager_ := FactManager_ s; Inverse_ := Inverse_ s ++ [Smoo];
     bIsBlockedOperator_ := bIsBlockedOperator_ s;
     rangeMapExtractor_ := rangeMapExtractor_ s;
     domainMapExtractor_ := domainMapExtractor_ s;
     A_ := A_ s; IsSetup := IsSetup s |}.

Definition push_back_bIsBlockedOperator_ (b : bool)
    (s : BlockedGaussSeidelSmoother) : BlockedGaussSeidelSmoother :=
  {| param_A := param_A s; param_Damping_factor := param_Damping_factor s;
     param_Sweeps := param_Sweeps s;
     FactManager_ := FactManager_ s; Inverse_ := Inverse_ s;
     bIsBlockedOperator_ := bIsBlockedOperator_ s ++ [b];
     rangeMapExtractor_ := rangeMapExtractor_ s;
     domainMapExtractor_ := domainMapExtractor_ s;
     A_ := A_ s; IsSetup := IsSetup s |}.

Definition set_IsSetup (b : bool)
    (s : BlockedGaussSeidelSmoother) : BlockedGaussSeidelSmoother :=
  {| param_A := param_A s; param_Damping_factor := param_Damping_factor s;
     param_Sweeps := param_Sweeps s;
     FactManager_ := FactManager_ s; Inverse_ := Inverse_ s;
     bIsBlockedOperator_ := bIsBlockedOperator_ s;
     rangeMapExtractor_ := rangeMapExtractor_ s;
     domainMapExtractor_ := domainMapExtractor_ s;
     A_ := A_ s; IsSetup := b |}.

(** ** Methods that change the object

    A method runs on the object, may raise, and may write warnings; what it
    did to the object before raising stays done, as in C++. *)
Record Outcome (R : Type) : Type := {
  result : Exception + R;
  object : BlockedGaussSeidelSmoother;
  warnings : list Warning
}.
Arguments result {R} _.
Arguments object {R} _.
Arguments warnings {R} _.

Definition Method (R : Type) : Type := BlockedGaussSeidelSmoother -> Outcome R.

Definition ret {R} (r : R) : Method R :=
  fun s => {| result := inr r; object := s; warnings := [] |}.

Definition throw {R} (e : Exception) : Method R :=
  fun s => {| result := inl e; object := s; warnings := [] |}.

Definition bind {R R'} (m : Method R) (k : R -> Method R') : Method R' :=
  fun s =>
    let o := m s in
    match result o with
    | inl e => {| result := inl e; object := object o; warnings := warnings o |}
    | inr r =>
        let o' := k r (object o) in
        {| result := result o'; object := object o';
           warnings := warnings o ++ warnings o' |}
    end.

Definition this : Method BlockedGaussSeidelSmoother :=
  fun s => {| result := inr s; object := s; warnings := [] |}.

Definition assign (f : BlockedGaussSeidelSmoother -> BlockedGaussSeidelSmoother)
    : Method unit :=
  fun s => {| result := inr tt; object := f s; warnings := [] |}.

Definition warn (w : Warning) : Method unit :=
  fun s => {| result := inr tt; object := s; warnings := [w] |}.

(** [TEUCHOS_TEST_FOR_EXCEPTION(cond, exc, msg)] *)
Definition TEST_FOR_EXCEPTION (cond : bool) (e : Exception) : Method unit :=
  if cond then throw e else ret tt.

(** [currentLevel.Get<...>(name, factory)] *)
Definition Get {R} (found : option R) : Method R :=
  match found with
  | Some r => ret r
  | None => throw Level_data_not_available
  end.

End Smoother.

Arguments BlockedCrsMatrix SC : clear implicits.
Arguments Matrix SC : clear implicits.
Arguments SmootherBase SC : clear implicits.
Arguments Level SC : clear implicits.
Arguments BlockedGaussSeidelSmoother SC : clear implicits.
Arguments Outcome SC R : clear implicits.
Arguments Method SC R : clear implicits.
Arguments result {SC R} _.
Arguments object {SC R} _.
Arguments warnings {SC R} _.

Notation "x <- m ;; k" := (bind m (fun x => k))
  (at level 63, m at next level, right associativity).
Notation "m ;;; k" := (bind m (fun _ => k))
  (at level 63, right associativity).

Section Methods.
Context {SC : Type} `{ScalarTraits SC}.

(** ** AddFactoryManager (lines 55-73) *)
Definition AddFactoryManager (FactManager : FactoryManagerBase) (pos : Z)
    : Method SC unit :=
  TEST_FOR_EXCEPTION (pos <? 0)%Z (RuntimeError pos_must_not_be_negative) ;;;
  let myPos := Z.to_nat pos in
  s <- this ;;
  if myPos <? length (FactManager_ s) then
    assign (set_FactManager_ (<[myPos := FactManager]> (FactManager_ s)))
  else if myPos =? length (FactManager_ s) then
    assign (set_FactManager_ (FactManager_ s ++ [FactManager]))
  else
    warn (cannot_add_at_proper_position pos) ;;;
    assign (set_FactManager_ (FactManager_ s ++ [FactManager])).

(** ** Setup (lines 95-129) *)

(** The loop over the factory managers (lines 116-126). *)
Fixpoint Setup_block_rows (currentLevel : Level SC)
    (it : list FactoryManagerBase) : Method SC unit :=
  match it with
  | [] => ret tt
  | fm :: it' =>
      Smoo <- Get (Level_Get_PreSmoother currentLevel (GetFactory_Smoother fm)) ;;
      assign (push_back_Inverse_ Smoo) ;;;
      Aii <- Get (Level_Get_A currentLevel (GetFactory_A fm)) ;;
      assign (push_back_bIsBlockedOperator_
                (bool_decide (is_Some (as_BlockedCrsMatrix Aii)))) ;;;
      Setup_block_rows currentLevel it'
  end.

Definition Setup (currentLevel : Level SC) : Method SC unit :=
  s <- this ;;
  (if IsSetup s then warn Setup_has_already_been_called else ret tt) ;;;
  A <- Get (Level_Get_A currentLevel (param_A s)) ;;
  assign (set_A_ (Some A)) ;;;
  match as_BlockedCrsMatrix A with
  | None => throw BadCast
  | Some bA =>
      let n := length (FactManager_ s) in
      TEST_FOR_EXCEPTION (negb (Rows bA =? n))
        (RuntimeError (block_rows_do_not_match (Rows bA) n)) ;;;
      TEST_FOR_EXCEPTION (negb (Cols bA =? n))
        (RuntimeError (block_cols_do_not_match (Cols bA) n)) ;;;
      assign (set_MapExtractors (Some (getRangeMapExtractor bA))
                                (Some (getDomainMapExtractor bA))) ;;;
      Setup_block_rows currentLevel (FactManager_ s) ;;;
      assign (set_IsSetup true)
  end.

(** ** Copy (lines 276-279)

    The copy is constructed from [*this].  The class defines no copy
    constructor among its member definitions, so this is the implicit one,
    which copies every member and the base-class sub-object. *)
Definition Copy (s : BlockedGaussSeidelSmoother SC)
    : BlockedGaussSeidelSmoother SC :=
  {| param_A := param_A s; param_Damping_factor := param_Damping_factor s;
     param_Sweeps := param_Sweeps s;
     FactManager_ := FactManager_ s; Inverse_ := Inverse_ s;
     bIsBlockedOperator_ := bIsBlockedOperator_ s;
     rangeMapExtractor_ := rangeMapExtractor_ s;
     domainMapExtractor_ := domainMapExtractor_ s;
     A_ := A_ s; IsSetup := IsSetup s |}.

(** ** Apply (lines 131-274) *)

(** Modelled from the spec: the Operator's row-contribution operation
    ([BlockedCrsMatrix::bgs_apply], whose header is not among the sources):
    the products of the blocks of row [row] with the blocks of [X] are
    summed into a row-shaped vector, which is inserted at [row] of an
    otherwise zero vector [tmpY]; then [Y = alpha*tmpY + beta*Y].  The
    bounds checks of the collaborator are not modelled: a row the operator
    does not have contributes nothing. *)
Definition row_contribution (bA : BlockedCrsMatrix SC) (X : list (Vec SC))
    (row : nat) : Vec SC :=
  foldl (fun Yblock col =>
           match getMatrix bA row col with
           | None => Yblock
           | Some Ablock =>
               update one (Ablock (default [] (X !! col))) one Yblock
           end)
        (getVector (getRangeMapExtractor bA) row) (seq 0 (Cols bA)).

Definition bgs_apply (bA : BlockedCrsMatrix SC) (X Y : list (Vec SC))
    (row : nat) (alpha beta : SC) : list (Vec SC) :=
  let tmpY := <[row := row_contribution bA X row]> (putScalar_blocks zero Y) in
  update_blocks alpha tmpY beta Y.

(** One entry per pass through the body of the inner loop, in program
    order: what the pass read and what it handed to the sub-smoother. *)
Record SweepStep : Type := {
  step_run : Z;
  step_row : nat;
  step_X : list (Vec SC);
  step_product : bool;
  step_residual : list (Vec SC);
  step_tXi : Vec SC;
  step_ri : Vec SC;
  step_InitialGuessIsZero : bool;
  step_correction : Vec SC
}.

(** The sub-vectors behind [rcpX], the residual, and the passes so far. *)
Record Workspace : Type := {
  ws_X : list (Vec SC);
  ws_residual : list (Vec SC);
  ws_steps : list SweepStep
}.

Section Sweeps.
Variable bA : BlockedCrsMatrix SC.
Variable rangeMapExtractor domainMapExtractor : option MapExtractor.
Variable Inverse : list (SmootherBase SC).
Variable rcpB : list (Vec SC).
Variable groups : list (list nat).
Variable omega : SC.
Variable InitialGuessIsZero : bool.

(** The body of the inner loop (lines 249-266), once both extractors are
    dereferenced: the residual is overwritten with [B] (line 251), the row
    product is subtracted unless the test of line 252 fails, [Xi] is block
    [i] of [rcpX] itself, [ri] block [i] of the residual, [tXi] a fresh
    zero vector over block [i] of the domain map; the sub-smoother runs on
    [tXi] and [ri] (line 263), and [Xi] takes the damped update (line 266)
    in the storage behind [rcpX]. *)
Definition bgs_block_row (dme : MapExtractor) (run : Z) (i : nat)
    (Smoo : SmootherBase SC) (w : Workspace) : Workspace :=
  let residual := update_blocks one rcpB zero (ws_residual w) in
  let rcpX := view_blocks groups (ws_X w) in
  let product := negb InitialGuessIsZero || (0 <? i) || (0 <? run)%Z in
  let residual :=
    if product then bgs_apply bA rcpX residual i (negate one) one
    else residual in
  let ri := default [] (residual !! i) in
  let tXi := getVector dme i in
  let third_argument := false in
  let correction := smoother_Apply Smoo tXi ri third_argument in
  {| ws_X := view_update omega correction (default [] (groups !! i)) (ws_X w);
     ws_residual := residual;
     ws_steps := ws_steps w ++
       [ {| step_run := run; step_row := i; step_X := rcpX;
            step_product := product; step_residual := residual;
            step_tXi := tXi; step_ri := ri;
            step_InitialGuessIsZero := third_argument;
            step_correction := correction |} ] |}.

(** [for (size_t i = 0; i < Inverse_.size(); i++)], with [rest] the
    sub-smoothers from [Inverse_.at(i)] on.  The extractors are members
    that [Setup] binds; a pass on a null one cannot go on. *)
Fixpoint bgs_block_rows (run : Z) (i : nat) (rest : list (SmootherBase SC))
    (w : Workspace) : Exception + Workspace :=
  match rest with
  | [] => inr w
  | Smoo :: rest' =>
      match rangeMapExtractor, domainMapExtractor with
      | Some _, Some dme =>
          bgs_block_rows run (S i) rest' (bgs_block_row dme run i Smoo w)
      | _, _ => inl NullReference
      end
  end.

(** [for (LocalOrdinal run = 0; run < nSweeps; ++run)], with [todo] the
    number of passes left. *)
Fixpoint bgs_sweeps (run : Z) (todo : nat) (w : Workspace)
    : Exception + Workspace :=
  match todo with
  | O => inr w
  | S todo' =>
      match bgs_block_rows run 0 Inverse w with
      | inl e => inl e
      | inr w' => bgs_sweeps (run + 1)%Z todo' w'
      end
  end.

End Sweeps.

(** Lines 163-228 for one of the two vectors: the sub-vectors the
    algorithm works on, the blocked map they were cut with, and the flags
    [bCopyResult] and [bReorder]. *)
Record Reconciled : Type := {
  sub_vectors : list (Vec SC);
  blocked_map : MapExtractor;
  bCopyResult : bool;
  bReorder : bool
}.

Definition reconcile (own_map : MapExtractor)
    (native_map : option MapExtractor) (V : MultiVector SC) : Reconciled :=
  match native_map with
  | Some native =>
      match V with
      | FlatMV v =>
          {| sub_vectors := BlockedMultiVector_ctor native v;
             blocked_map := native; bCopyResult := true; bReorder := true |}
      | BlockedMV vv =>
          {| sub_vectors := vv; blocked_map := native;
             bCopyResult := false; bReorder := false |}
      end
  | None =>
      match V with
      | FlatMV v =>
          {| sub_vectors := BlockedMultiVector_ctor own_map v;
             blocked_map := own_map; bCopyResult := true; bReorder := false |}
      | BlockedMV vv =>
          {| sub_vectors := vv; blocked_map := own_map;
             bCopyResult := false; bReorder := false |}
      end
  end.

(** Lines 213-228: the top-level blocks of the vector the algorithm sees. *)
Definition top_level_blocks (own_map : MapExtractor)
    (brm : option BlockReorderManager) (r : Reconciled) : list (list nat) :=
  match brm with
  | Some plan =>
      if negb (length (sub_vectors r) =? NumMaps own_map) || bReorder r
      then brm_groups plan
      else plain_groups (length (sub_vectors r))
  | None => plain_groups (length (sub_vectors r))
  end.

Definition Apply (s : BlockedGaussSeidelSmoother SC) (X B : MultiVector SC)
    (InitialGuessIsZero : bool)
    : Exception + (MultiVector SC * list SweepStep) :=
  if negb (IsSetup s) then inl (RuntimeError Setup_has_not_been_called) else
  match A_ s ≫= as_BlockedCrsMatrix with
  | None => inl (RuntimeError A_must_be_a_BlockedCrsMatrix)
  | Some bA =>
      let rbA := reordered bA in
      let brm := getBlockReorderManager <$> rbA in
      let bX := reconcile (getDomainMapExtractor bA)
                  (native_BlockedDomainMap <$> rbA) X in
      let bB := reconcile (getRangeMapExtractor bA)
                  (native_BlockedRangeMap <$> rbA) B in
      let groupsX := top_level_blocks (getDomainMapExtractor bA) brm bX in
      let groupsB := top_level_blocks (getRangeMapExtractor bA) brm bB in
      let rcpB := view_blocks groupsB (sub_vectors bB) in
      let residual := putScalar_blocks zero rcpB in
      let nSweeps := param_Sweeps s in
      let omega := param_Damping_factor s in
      let x0 :=
        if InitialGuessIsZero
        then view_putScalar zero (concat groupsX) (sub_vectors bX)
        else sub_vectors bX in
      match bgs_sweeps bA (rangeMapExtractor_ s) (domainMapExtractor_ s)
              (Inverse_ s) rcpB groupsX omega InitialGuessIsZero
              0%Z (Z.to_nat nSweeps)
              {| ws_X := x0; ws_residual := residual; ws_steps := [] |} with
      | inl e => inl e
      | inr w =>
          inr (match X with
               | FlatMV v =>
                   if bCopyResult bX
                   then FlatMV (update one (Merge (blocked_map bX) (ws_X w)) zero v)
                   else FlatMV v
               | BlockedMV _ => BlockedMV (ws_X w)
               end,
               ws_steps w)
      end
  end.

End Methods.

Arguments SweepStep SC : clear implicits.
Arguments Workspace SC : clear implicits.

(** ** What the statements below are phrased with *)

Section Predicates.
Context {SC : Type} `{ScalarTraits SC}.

(** Every registered manager finds its sub-smoother and its diagonal block
    on the level. *)
Definition dependencies_ready (currentLevel : Level SC)
    (fms : list FactoryManagerBase) : bool :=
  forallb (fun fm =>
             bool_decide (is_Some (Level_Get_PreSmoother currentLevel
                                     (GetFactory_Smoother fm)))
             && bool_decide (is_Some (Level_Get_A currentLevel
                                        (GetFactory_A fm))))
          fms.

(** The configuration of an instance: its parameters and its registered
    providers. *)
Definition shares_configuration (s c : BlockedGaussSeidelSmoother SC) : Prop :=
  param_A c = param_A s
  /\ param_Damping_factor c = param_Damping_factor s
  /\ param_Sweeps c = param_Sweeps s
  /\ FactManager_ c = FactManager_ s.

(** No bound runtime state: not set up, no operator, no sub-smoothers, no
    blockedness flags, no partition descriptors. *)
Definition carries_no_bound_state (s : BlockedGaussSeidelSmoother SC) : Prop :=
  IsSetup s = false
  /\ A_ s = None
  /\ Inverse_ s = []
  /\ bIsBlockedOperator_ s = []
  /\ rangeMapExtractor_ s = None
  /\ domainMapExtractor_ s = None.

(** What the loop of [Setup] adds to an object. *)
Definition with_block_rows (smoos : list (SmootherBase SC)) (flags : list bool)
    (s : BlockedGaussSeidelSmoother SC) : BlockedGaussSeidelSmoother SC :=
  {| param_A := param_A s; param_Damping_factor := param_Damping_factor s;
     param_Sweeps := param_Sweeps s;
     FactManager_ := FactManager_ s; Inverse_ := Inverse_ s ++ smoos;
     bIsBlockedOperator_ := bIsBlockedOperator_ s ++ flags;
     rangeMapExtractor_ := rangeMapExtractor_ s;
     domainMapExtractor_ := domainMapExtractor_ s;
     A_ := A_ s; IsSetup := IsSetup s |}.

(** The vector [X] can be cut and put together again by the operator: a
    flat vector is exactly covered by the blocked map it is wrapped with,
    and a reordering plan, where one is applied, reaches every sub-vector. *)
Definition reconcilable (bA : BlockedCrsMatrix SC) (X : MultiVector SC) : bool :=
  let rbA := reordered bA in
  let bX := reconcile (getDomainMapExtractor bA)
              (native_BlockedDomainMap <$> rbA) X in
  let groupsX := top_level_blocks (getDomainMapExtractor bA)
                   (getBlockReorderManager <$> rbA) bX in
  covers (concat groupsX) (length (sub_vectors bX))
  && match X with
     | FlatMV v => partitions (blocked_map bX) (length v)
     | BlockedMV _ => true
     end.

(** Two blocked vectors over the same maps. *)
Definition same_shape (A B : list (Vec SC)) : Prop :=
  Forall2 (fun a b => length a = length b) A B.

(** [X] after [putScalar(zero)]. *)
Definition zero_reset (X : MultiVector SC) : MultiVector SC :=
  match X with
  | FlatMV v => FlatMV (putScalar zero v)
  | BlockedMV vv => BlockedMV (putScalar_blocks zero vv)
  end.

(** The right-hand side as the sweeps read it (lines 163-228 for [B]). *)
Definition rhs_blocks (bA : BlockedCrsMatrix SC) (B : MultiVector SC)
    : list (Vec SC) :=
  let rbA := reordered bA in
  let bB := reconcile (getRangeMapExtractor bA)
              (native_BlockedRangeMap <$> rbA) B in
  view_blocks
    (top_level_blocks (getRangeMapExtractor bA)
       (getBlockReorderManager <$> rbA) bB)
    (sub_vectors bB).

(** The top-level blocks of the solution vector (lines 163-228 for [X]). *)
Definition solution_groups (bA : BlockedCrsMatrix SC) (X : MultiVector SC)
    : list (list nat) :=
  let rbA := reordered bA in
  top_level_blocks (getDomainMapExtractor bA)
    (getBlockReorderManager <$> rbA)
    (reconcile (getDomainMapExtractor bA)
       (native_BlockedDomainMap <$> rbA) X).

(** The sub-vectors the first sweep starts from (lines 241-242). *)
Definition initial_sub_vectors (bA : BlockedCrsMatrix SC) (X : MultiVector SC)
    (InitialGuessIsZero : bool) : list (Vec SC) :=
  let rbA := reordered bA in
  let bX := reconcile (getDomainMapExtractor bA)
              (native_BlockedDomainMap <$> rbA) X in
  if InitialGuessIsZero
  then view_putScalar zero (concat (solution_groups bA X)) (sub_vectors bX)
  else sub_vectors bX.

(** What the caller finds in [X] once the sub-vectors are [st]
    (lines 270-273). *)
Definition handed_back (bA : BlockedCrsMatrix SC) (X : MultiVector SC)
    (st : list (Vec SC)) : MultiVector SC :=
  let rbA := reordered bA in
  let bX := reconcile (getDomainMapExtractor bA)
              (native_BlockedDomainMap <$> rbA) X in
  match X with
  | FlatMV v =>
      if bCopyResult bX
      then FlatMV (update one (Merge (blocked_map bX) st) zero v)
      else FlatMV v
  | BlockedMV _ => BlockedMV st
  end.

(** What [Apply] leaves in [X] when the sweep loop is not entered: the
    reset of line 242 when requested, the copy of lines 270-273 when [X]
    came in flat. *)
Definition without_sweeps (bA : BlockedCrsMatrix SC) (X : MultiVector SC)
    (InitialGuessIsZero : bool) : MultiVector SC :=
  handed_back bA X (initial_sub_vectors bA X InitialGuessIsZero).

(** The operator and the two partition descriptors of an object that is
    set up. *)
Definition configured (s : BlockedGaussSeidelSmoother SC)
    : option (BlockedCrsMatrix SC * MapExtractor * MapExtractor) :=
  if IsSetup s then
    bA ← A_ s ≫= as_BlockedCrsMatrix;
    rme ← rangeMapExtractor_ s;
    dme ← domainMapExtractor_ s;
    Some (bA, rme, dme)
  else None.

(** No sub-vector of [X] belongs to two top-level blocks (always so
    without a reordering plan; a plan must not name a native block
    twice). *)
Definition distinct_blocks (bA : BlockedCrsMatrix SC) (X : MultiVector SC)
    : bool :=
  bool_decide (NoDup (concat (solution_groups bA X))).



End Predicates.

(** ** DeclareInput (lines 75-92), and what else the statements need *)

(** What [currentLevel.DeclareInput(name, factory)] files with the level:
    the name of the variable and the factory asked for it. *)
Inductive Request : Type :=
| Request_A (factory : option FactoryBase)
| Request_PreSmoother (factory : option FactoryBase).

(** The loop over the factory managers (lines 82-91). *)
Fixpoint DeclareInput_block_rows (it : list FactoryManagerBase)
    : list Request :=
  match it with
  | [] => []
  | fm :: it' =>
      Request_PreSmoother (GetFactory_Smoother fm)
        :: Request_A (GetFactory_A fm)
        :: DeclareInput_block_rows it'
  end.

Section Further.
Context {SC : Type} `{ScalarTraits SC}.

(** The requests of [DeclareInput], in the order they are filed. *)
Definition DeclareInput (s : BlockedGaussSeidelSmoother SC) : list Request :=
  Request_A (param_A s) :: DeclareInput_block_rows (FactManager_ s).

(** The level holds what a request asks for. *)
Definition Level_holds (currentLevel : Level SC) (r : Request) : bool :=
  match r with
  | Request_A f => bool_decide (is_Some (Level_Get_A currentLevel f))
  | Request_PreSmoother f =>
      bool_decide (is_Some (Level_Get_PreSmoother currentLevel f))
  end.

(** [AddFactoryManager] called once per manager of a list, for the
    positions [pos], [pos + 1], ... *)
Fixpoint AddFactoryManagers (pos : Z) (fms : list FactoryManagerBase)
    : Method SC unit :=
  match fms with
  | [] => ret tt
  | fm :: fms' =>
      AddFactoryManager fm pos ;;; AddFactoryManagers (pos + 1)%Z fms'
  end.

(** Two caller's vectors of the same kind and the same sizes. *)
Definition same_layout (X X' : MultiVector SC) : Prop :=
  match X, X' with
  | FlatMV v, FlatMV v' => length v' = length v
  | BlockedMV vv, BlockedMV vv' => same_shape vv' vv
  | _, _ => False
  end.

(** A caller's vector that fits the blocked map [me]: a flat vector has
    one entry for each position of the full map and every position
    belongs to a block; a block-partitioned vector has one sub-vector for
    each block, of the size of the block. *)
Definition laid_out_by (me : MapExtractor) (V : MultiVector SC) : bool :=
  match V with
  | FlatMV v => partitions me (length v)
  | BlockedMV vv => bool_decide (map length vv = map length (maps me))
  end.

(** The passes of [nSweeps] sweeps over [N] block rows, by sweep and
    row. *)
Definition passes_in_order (nSweeps N : nat) : list (Z * nat) :=
  flat_map (fun run => map (fun i => (Z.of_nat run, i)) (seq 0 N))
    (seq 0 nSweeps).

(** *** Damped block Gauss-Seidel, as a function of the solution

    The relaxation written down without workspace, trace or
    exceptions: the residual of block row [i] is [b_i], less the row
    contribution of the operator unless the product is left out; the
    sub-smoother of the row turns it into a correction from a zero guess;
    the correction, damped, is added to block [i]. *)
Section Relaxation.
Variable bA : BlockedCrsMatrix SC.
Variable dme : MapExtractor.
Variable Inverse : list (SmootherBase SC).
Variable rcpB : list (Vec SC).
Variable groups : list (list nat).
Variable omega : SC.

Definition block_residual (x : list (Vec SC)) (i : nat) (product : bool)
    : Vec SC :=
  match rcpB !! i with
  | Some b_i =>
      if product
      then update (negate one) (row_contribution bA x i) one b_i
      else b_i
  | None => []
  end.

Definition relax_row (skip_first : bool) (i : nat) (Smoo : SmootherBase SC)
    (st : list (Vec SC)) : list (Vec SC) :=
  let r_i := block_residual (view_blocks groups st) i
               (negb skip_first || (0 <? i)) in
  view_update omega (smoother_Apply Smoo (getVector dme i) r_i false)
    (default [] (groups !! i)) st.

Fixpoint relax_rows (skip_first : bool) (i : nat)
    (rest : list (SmootherBase SC)) (st : list (Vec SC)) : list (Vec SC) :=
  match rest with
  | [] => st
  | Smoo :: rest' =>
      relax_rows skip_first (S i) rest' (relax_row skip_first i Smoo st)
  end.

(** [skip_first]: the very first row of the very first sweep forms no
    product. *)
Fixpoint relax_sweeps (skip_first : bool) (todo : nat) (st : list (Vec SC))
    : list (Vec SC) :=
  match todo with
  | O => st
  | S todo' => relax_sweeps false todo' (relax_rows skip_first 0 Inverse st)
  end.

End Relaxation.

(** The relaxation [Apply] is to perform on [X] and [B]. *)
Definition relaxed (s : BlockedGaussSeidelSmoother SC)
    (bA : BlockedCrsMatrix SC) (dme : MapExtractor) (X B : MultiVector SC)
    (InitialGuessIsZero : bool) : list (Vec SC) :=
  relax_sweeps bA dme (Inverse_ s) (rhs_blocks bA B) (solution_groups bA X)
    (param_Damping_factor s) InitialGuessIsZero
    (Z.to_nat (param_Sweeps s))
    (initial_sub_vectors bA X InitialGuessIsZero).

(** The residual of the first pass of a run from a zero initial guess,
    with and without the product of line 253. *)
Definition first_residual (bA : BlockedCrsMatrix SC) (X B : MultiVector SC)
    (product : bool) : Vec SC :=
  block_residual bA (rhs_blocks bA B)
    (view_blocks (solution_groups bA X) (initial_sub_vectors bA X true))
    0 product.

End Further.

(** ** A small system to evaluate the code on

    Three unknowns in two blocks, [{0,1}] and [{2}], integer entries.
    Sub-smoother 0 returns the residual it is given (exact for an identity
    diagonal block); sub-smoother 1 does the same but, told that the
    initial guess is zero, returns its input untouched. *)

Module Example.

Definition extractor : MapExtractor :=
  {| fullSize := 3; maps := [[0; 1]; [2]]; getThyraMode := false |}.

Definition operator : BlockedCrsMatrix Z :=
  {| Rows := 2; Cols := 2;
     getMatrix := fun r c =>
       match r, c with
       | 0, 0 => Some (fun x => x)
       | 0, 1 => Some (fun x => [hd 0%Z x; 0%Z])
       | 1, 0 => Some (fun x => [(hd 0 x + hd 0 (tl x))%Z])
       | 1, 1 => Some (fun x => x)
       | _, _ => None
       end;
     getRangeMapExtractor := extractor;
     getDomainMapExtractor := extractor;
     reordered := None |}.

Definition smoother0 : SmootherBase Z :=
  {| smoother_Apply := fun X B InitialGuessIsZero => B |}.

Definition smoother1 : SmootherBase Z :=
  {| smoother_Apply := fun X B InitialGuessIsZero =>
       if InitialGuessIsZero then X else B |}.

Definition manager0 : FactoryManagerBase :=
  {| GetFactory_Smoother := Some 10; GetFactory_A := Some 20 |}.

Definition manager1 : FactoryManagerBase :=
  {| GetFactory_Smoother := Some 11; GetFactory_A := Some 21 |}.

Definition level : Level Z :=
  {| Level_Get_A := fun f =>
       match f with
       | None => Some (BlockedCrs operator)
       | Some _ => Some (CrsMatrixWrap (fun x => x))
       end;
     Level_Get_PreSmoother := fun f =>
       match f with
       | Some 10 => Some smoother0
       | Some 11 => Some smoother1
       | _ => None
       end |}.

(** One registration only: one entry against two block rows. *)
Definition short_prototype : BlockedGaussSeidelSmoother Z :=
  object (AddFactoryManager manager0 0 new_BlockedGaussSeidelSmoother).

Definition prototype : BlockedGaussSeidelSmoother Z :=
  object (AddFactoryManager manager1 1 short_prototype).

Definition smoother : BlockedGaussSeidelSmoother Z :=
  object (Setup level prototype).

(** A single block row, for the smallest run of [Setup] twice. *)
Definition extractor1 : MapExtractor :=
  {| fullSize := 1; maps := [[0]]; getThyraMode := false |}.

Definition operator1 : BlockedCrsMatrix Z :=
  {| Rows := 1; Cols := 1;
     getMatrix := fun r c =>
       match r, c with
       | 0, 0 => Some (fun x => x)
       | _, _ => None
       end;
     getRangeMapExtractor := extractor1;
     getDomainMapExtractor := extractor1;
     reordered := None |}.

Definition level1 : Level Z :=
  {| Level_Get_A := fun f =>
       match f with
       | None => Some (BlockedCrs operator1)
       | Some _ => Some (CrsMatrixWrap (fun x => x))
       end;
     Level_Get_PreSmoother := fun f => Some smoother0 |}.

(** The one-row system set up once, and set up once more. *)
Definition set_up_once : BlockedGaussSeidelSmoother Z :=
  object (Setup level1 short_prototype).

Definition set_up_twice : BlockedGaussSeidelSmoother Z :=
  object (Setup level1 set_up_once).

(** The two-block operator again, now as the reordering of an operator
    with three native blocks of one unknown each: the plan groups native
    blocks 0 and 1 into the first block and leaves native block 2 as the
    second. *)
Definition native_extractor : MapExtractor :=
  {| fullSize := 3; maps := [[0]; [1]; [2]]; getThyraMode := false |}.

Definition plan : BlockReorderManager :=
  BlockReorderNode
    [BlockReorderNode [BlockReorderLeaf 0; BlockReorderLeaf 1];
     BlockReorderLeaf 2].

Definition reordered_operator : BlockedCrsMatrix Z :=
  {| Rows := 2; Cols := 2;
     getMatrix := getMatrix operator;
     getRangeMapExtractor := extractor;
     getDomainMapExtractor := extractor;
     reordered :=
       Some {| getBlockReorderManager := plan;
               native_BlockedRangeMap := native_extractor;
               native_BlockedDomainMap := native_extractor |} |}.

Definition reordered_level : Level Z :=
  {| Level_Get_A := fun f =>
       match f with
       | None => Some (BlockedCrs reordered_operator)
       | Some _ => Some (CrsMatrixWrap (fun x => x))
       end;
     Level_Get_PreSmoother := Level_Get_PreSmoother level |}.

Definition reordered_smoother : BlockedGaussSeidelSmoother Z :=
  object (Setup reordered_level prototype).

(** A manager whose sub-smoother none of the levels above holds, and the
    two-row registry that ends with it. *)
Definition manager2 : FactoryManagerBase :=
  {| GetFactory_Smoother := Some 12; GetFactory_A := Some 22 |}.

Definition incomplete_prototype : BlockedGaussSeidelSmoother Z :=
  object (AddFactoryManager manager2 1 short_prototype).

(** A level whose operator is not block-partitioned. *)
Definition flat_level : Level Z :=
  {| Level_Get_A := fun f => Some (CrsMatrixWrap (fun x => x));
     Level_Get_PreSmoother := Level_Get_PreSmoother level |}.

End Example.

(** * Theorems *)

(** ** Registration *)

Section Registration.
Context {SC : Type} `{ScalarTraits SC}.

(** C9.  [AddFactoryManager] called with a negative position raises
    [Exceptions::RuntimeError] from the test on [pos] (the failure the
    specification names InvalidArgument) and leaves the object, hence the
    registry, as it was; nothing is written to the warning stream. *)
Theorem AddFactoryManager_negative_position
    (FactManager : FactoryManagerBase) (pos : Z)
    (s : BlockedGaussSeidelSmoother SC) :
  (pos < 0)%Z ->
  result (AddFactoryManager FactManager pos s)
    = inl (RuntimeError pos_must_not_be_negative)
  /\ object (AddFactoryManager FactManager pos s) = s
  /\ FactManager_ (object (AddFactoryManager FactManager pos s))
     = FactManager_ s
  /\ warnings (AddFactoryManager FactManager pos s) = [].
Proof.
  intros Hneg. unfold AddFactoryManager, TEST_FOR_EXCEPTION, bind.
  apply Z.ltb_lt in Hneg. rewrite Hneg. cbn. auto.
Qed.

(** Registration past the end appends and warns. *)
Lemma AddFactoryManager_beyond_end
    (FactManager : FactoryManagerBase) (pos : Z)
    (s : BlockedGaussSeidelSmoother SC) :
  (Z.of_nat (length (FactManager_ s)) < pos)%Z ->
  result (AddFactoryManager FactManager pos s) = inr tt
  /\ FactManager_ (object (AddFactoryManager FactManager pos s))
     = FactManager_ s ++ [FactManager]
  /\ warnings (AddFactoryManager FactManager pos s)
     = [cannot_add_at_proper_position pos].
Proof.
  intros Hpos. unfold AddFactoryManager, TEST_FOR_EXCEPTION, bind.
  assert (E1 : (pos <? 0)%Z = false) by lia.
  assert (E2 : (Z.to_nat pos <? length (FactManager_ s)) = false)
    by (apply Nat.ltb_ge; lia).
  assert (E3 : (Z.to_nat pos =? length (FactManager_ s)) = false)
    by (apply Nat.eqb_neq; lia).
  rewrite E1. cbn -[Nat.ltb Nat.eqb]. rewrite E2, E3. cbn. auto.
Qed.

End Registration.

(** ** Setup *)

Section SetupFacts.
Context {SC : Type} `{ScalarTraits SC}.

Lemma with_block_rows_nil (s : BlockedGaussSeidelSmoother SC) :
  with_block_rows [] [] s = s.
Proof.
  destruct s. unfold with_block_rows. cbn. by rewrite !app_nil_r.
Qed.

Lemma with_block_rows_push (Smoo : SmootherBase SC) (b : bool)
    (smoos : list (SmootherBase SC)) (flags : list bool)
    (s : BlockedGaussSeidelSmoother SC) :
  with_block_rows smoos flags
    (push_back_bIsBlockedOperator_ b (push_back_Inverse_ Smoo s))
  = with_block_rows (Smoo :: smoos) (b :: flags) s.
Proof.
  unfold with_block_rows. cbn. by rewrite <- !app_assoc.
Qed.

(** With every dependency on the level, the loop of [Setup] runs to its end
    and adds one sub-smoother and one flag per registered manager. *)
Lemma Setup_block_rows_ready (currentLevel : Level SC)
    (fms : list FactoryManagerBase) :
  dependencies_ready currentLevel fms = true ->
  exists smoos flags,
    length smoos = length fms /\ length flags = length fms
    /\ forall s, Setup_block_rows currentLevel fms s
         = {| result := inr tt;
              object := with_block_rows smoos flags s;
              warnings := [] |}.
Proof.
  induction fms as [|fm fms IH]; cbn [dependencies_ready forallb].
  - intros _. exists [], []. repeat split. intros s. cbn.
    by rewrite with_block_rows_nil.
  - intros Hready. apply andb_prop in Hready as [Hfm Hrest].
    apply andb_prop in Hfm as [HS HA].
    apply bool_decide_eq_true in HS as [Smoo HS].
    apply bool_decide_eq_true in HA as [Aii HA].
    destruct (IH Hrest) as (smoos & flags & Hl1 & Hl2 & Hrun).
    exists (Smoo :: smoos),
      (bool_decide (is_Some (as_BlockedCrsMatrix Aii)) :: flags).
    cbn [length]. repeat split; [lia | lia |].
    intros s. cbn [Setup_block_rows]. unfold bind, Get, assign, ret.
    rewrite HS, HA. cbn. rewrite Hrun. cbn.
    by rewrite with_block_rows_push.
Qed.

(** How [Setup] ends on a block-partitioned operator whose counts match. *)
Lemma Setup_matching (currentLevel : Level SC)
    (s : BlockedGaussSeidelSmoother SC) (bA : BlockedCrsMatrix SC) :
  Level_Get_A currentLevel (param_A s) = Some (BlockedCrs bA) ->
  dependencies_ready currentLevel (FactManager_ s) = true ->
  Rows bA = length (FactManager_ s) ->
  Cols bA = length (FactManager_ s) ->
  exists smoos flags,
    length smoos = length (FactManager_ s)
    /\ length flags = length (FactManager_ s)
    /\ result (Setup currentLevel s) = inr tt
    /\ object (Setup currentLevel s)
       = set_IsSetup true
           (with_block_rows smoos flags
              (set_MapExtractors (Some (getRangeMapExtractor bA))
                 (Some (getDomainMapExtractor bA))
                 (set_A_ (Some (BlockedCrs bA)) s)))
    /\ warnings (Setup currentLevel s)
       = if IsSetup s then [Setup_has_already_been_called] else [].
Proof.
  intros HA Hready HR HC.
  destruct (Setup_block_rows_ready _ _ Hready)
    as (smoos & flags & Hl1 & Hl2 & Hrun).
  exists smoos, flags. split; [done|]. split; [done|].
  unfold Setup, bind, this, Get, assign, ret, TEST_FOR_EXCEPTION.
  cbn. rewrite HA. cbn. rewrite HR, HC, Nat.eqb_refl. cbn.
  rewrite Hrun. cbn.
  destruct (IsSetup s); cbn; auto.
Qed.

(** A successful [Setup] of a prototype leaves a smoother that is
    configured on the operator of the level, with the extractors of that
    operator and one sub-smoother per block row. *)
Lemma Setup_configured (currentLevel : Level SC)
    (s : BlockedGaussSeidelSmoother SC) (bA : BlockedCrsMatrix SC) :
  Level_Get_A currentLevel (param_A s) = Some (BlockedCrs bA) ->
  dependencies_ready currentLevel (FactManager_ s) = true ->
  Rows bA = length (FactManager_ s) ->
  Cols bA = length (FactManager_ s) ->
  configured (object (Setup currentLevel s))
  = Some (bA, getRangeMapExtractor bA, getDomainMapExtractor bA)
  /\ (Inverse_ s = [] ->
      length (Inverse_ (object (Setup currentLevel s))) = Rows bA).
Proof.
  intros HA Hready HR HC.
  destruct (Setup_matching _ _ _ HA Hready HR HC)
    as (smoos & flags & Hl1 & Hl2 & _ & Hobj & _).
  rewrite Hobj. split; [done|]. cbn. intros ->. cbn. lia.
Qed.

(** C2, as the code has it.  On a level that holds a block-partitioned
    operator and every per-row dependency, [Setup] succeeds exactly when
    the number of registered managers equals both the block row count and
    the block column count.  A mismatch raises [Exceptions::RuntimeError]
    (the specification's ConfigurationError), rows tested before columns,
    and by then the object has changed in one member only: [A_] has been
    rebound to the operator of the level.  The set-up flag, the bound
    sub-smoothers, the blockedness flags and the partition descriptors are
    as before the call. *)
Theorem Setup_succeeds_iff_block_counts_match
    (currentLevel : Level SC) (s : BlockedGaussSeidelSmoother SC)
    (bA : BlockedCrsMatrix SC) :
  Level_Get_A currentLevel (param_A s) = Some (BlockedCrs bA) ->
  dependencies_ready currentLevel (FactManager_ s) = true ->
  let n := length (FactManager_ s) in
  let o := Setup currentLevel s in
  (result o = inr tt <-> Rows bA = n /\ Cols bA = n)
  /\ (result o = inr tt -> IsSetup (object o) = true)
  /\ (Rows bA <> n ->
      result o = inl (RuntimeError (block_rows_do_not_match (Rows bA) n)))
  /\ (Rows bA = n -> Cols bA <> n ->
      result o = inl (RuntimeError (block_cols_do_not_match (Cols bA) n)))
  /\ (result o <> inr tt ->
      object o = set_A_ (Some (BlockedCrs bA)) s
      /\ IsSetup (object o) = IsSetup s
      /\ Inverse_ (object o) = Inverse_ s
      /\ bIsBlockedOperator_ (object o) = bIsBlockedOperator_ s
      /\ rangeMapExtractor_ (object o) = rangeMapExtractor_ s
      /\ domainMapExtractor_ (object o) = domainMapExtractor_ s).
Proof.
  intros HA Hready n o.
  destruct (decide (Rows bA = n)) as [HR|HR];
    [destruct (decide (Cols bA = n)) as [HC|HC]|].
  - destruct (Setup_matching _ _ _ HA Hready HR HC)
      as (smoos & flags & _ & _ & Hres & Hobj & _).
    subst o. rewrite Hres, Hobj. cbn.
    repeat split; try done; intros; try done; lia.
  - assert (Hres : result o
        = inl (RuntimeError (block_cols_do_not_match (Cols bA) n))
        /\ object o = set_A_ (Some (BlockedCrs bA)) s).
    { subst o n. unfold Setup, bind, this, Get, assign, ret,
        TEST_FOR_EXCEPTION, throw. cbn. rewrite HA. cbn.
      rewrite HR, Nat.eqb_refl. cbn.
      destruct (Nat.eqb_spec (Cols bA) (length (FactManager_ s)));
        [done|]. cbn. destruct (IsSetup s); cbn; auto. }
    destruct Hres as [Hres Hobj]. rewrite Hres, Hobj. cbn.
    repeat split; try done; intros; try done; intuition.
  - assert (Hres : result o
        = inl (RuntimeError (block_rows_do_not_match (Rows bA) n))
        /\ object o = set_A_ (Some (BlockedCrs bA)) s).
    { subst o n. unfold Setup, bind, this, Get, assign, ret,
        TEST_FOR_EXCEPTION, throw. cbn. rewrite HA. cbn.
      destruct (Nat.eqb_spec (Rows bA) (length (FactManager_ s)));
        [done|]. cbn. destruct (IsSetup s); cbn; auto. }
    destruct Hres as [Hres Hobj]. rewrite Hres, Hobj. cbn.
    repeat split; try done; intros; try done; intuition.
Qed.

(** A second [Setup] on the same level succeeds again and warns, but it
    appends to what the first one stored: the sub-smoother and flag vectors
    grow by the number of registered managers each time. *)
Lemma Setup_appends (currentLevel : Level SC)
    (s : BlockedGaussSeidelSmoother SC) (bA : BlockedCrsMatrix SC) :
  Level_Get_A currentLevel (param_A s) = Some (BlockedCrs bA) ->
  dependencies_ready currentLevel (FactManager_ s) = true ->
  Rows bA = length (FactManager_ s) ->
  Cols bA = length (FactManager_ s) ->
  length (Inverse_ (object (Setup currentLevel s)))
    = length (Inverse_ s) + length (FactManager_ s)
  /\ length (bIsBlockedOperator_ (object (Setup currentLevel s)))
    = length (bIsBlockedOperator_ s) + length (FactManager_ s).
Proof.
  intros HA Hready HR HC.
  destruct (Setup_matching _ _ _ HA Hready HR HC)
    as (smoos & flags & Hl1 & Hl2 & _ & Hobj & _).
  rewrite Hobj. cbn. rewrite !length_app. lia.
Qed.

(** [Copy] is a member-wise copy. *)
Lemma Copy_memberwise (s : BlockedGaussSeidelSmoother SC) : Copy s = s.
Proof. by destruct s. Qed.

(** C6, as the code has it.  For every instance the copy shares its
    configuration and carries the runtime state the instance has at that
    moment, member by member: the set-up flag, the operator, the bound
    sub-smoothers, the blockedness flags and both partition descriptors.
    So the copy of a prototype (not set up, nothing bound) is not set up
    and holds nothing bound, whereas the copy of an instance that is set
    up is set up, with the same operator and descriptors. *)
Theorem Copy_carries_configuration_and_state
    (s : BlockedGaussSeidelSmoother SC) :
  shares_configuration s (Copy s)
  /\ IsSetup (Copy s) = IsSetup s
  /\ A_ (Copy s) = A_ s
  /\ Inverse_ (Copy s) = Inverse_ s
  /\ bIsBlockedOperator_ (Copy s) = bIsBlockedOperator_ s
  /\ rangeMapExtractor_ (Copy s) = rangeMapExtractor_ s
  /\ domainMapExtractor_ (Copy s) = domainMapExtractor_ s
  /\ (carries_no_bound_state s -> carries_no_bound_state (Copy s))
  /\ (IsSetup s = true ->
      IsSetup (Copy s) = true /\ configured (Copy s) = configured s).
Proof.
  rewrite Copy_memberwise. split; [by repeat split|].
  by repeat (split; [done|]).
Qed.

End SetupFacts.

(** ** Vector kernels *)

Section Kernels.
Context {SC : Type} `{ScalarTraits SC}.

Lemma length_update (alpha beta : SC) (A this : Vec SC) :
  length (update alpha A beta this) = length this.
Proof.
  revert A. induction this as [|t this IH]; intros A; cbn; [done|].
  by rewrite IH.
Qed.

Lemma length_putScalar (c : SC) (this : Vec SC) :
  length (putScalar c this) = length this.
Proof. unfold putScalar. apply length_map. Qed.

Lemma putScalar_replicate (c : SC) (this : Vec SC) :
  putScalar c this = replicate (length this) c.
Proof. induction this as [|t this IH]; cbn; [done|]. by rewrite <- IH. Qed.


Lemma length_update_blocks (alpha beta : SC) (A this : list (Vec SC)) :
  length (update_blocks alpha A beta this) = length this.
Proof.
  revert A. induction this as [|t this IH]; intros A; cbn; [done|].
  by rewrite IH.
Qed.

Lemma lookup_update_blocks (alpha beta : SC) (A this : list (Vec SC))
    (j : nat) :
  update_blocks alpha A beta this !! j
  = update alpha (default [] (A !! j)) beta <$> this !! j.
Proof.
  revert A j. induction this as [|t this IH]; intros A j; cbn; [done|].
  destruct j as [|j]; cbn.
  - by destruct A.
  - rewrite IH. by destruct A.
Qed.

Lemma same_shape_refl (A : list (Vec SC)) : same_shape A A.
Proof. induction A; by constructor. Qed.

Lemma same_shape_putScalar_blocks (c : SC) (A : list (Vec SC)) :
  same_shape (putScalar_blocks c A) A.
Proof.
  induction A as [|a A IH]; cbn; constructor; [|done].
  apply length_putScalar.
Qed.

Lemma same_shape_update_blocks (alpha beta : SC) (A this : list (Vec SC)) :
  same_shape (update_blocks alpha A beta this) this.
Proof.
  revert A. induction this as [|t this IH]; intros A; cbn; constructor.
  - apply length_update.
  - apply IH.
Qed.

Context `{!ScalarLaws SC}.

(** [update(1.0, A, 0.0)] copies [A] ... *)
Lemma update_copy (A this : Vec SC) :
  length this = length A -> update one A zero this = A.
Proof.
  revert A. induction this as [|t this IH]; intros [|a A]; cbn;
    try done.
  intros [= Hlen].
  by rewrite times_one_l, times_zero_l, plus_zero_r, IH.
Qed.

(** ... and [update(0.0, A, 1.0)] leaves the storage as it is. *)
Lemma update_nothing (A this : Vec SC) : update zero A one this = this.
Proof.
  revert A. induction this as [|t this IH]; intros A; cbn; [done|].
  by rewrite times_zero_l, times_one_l, plus_zero_l, IH.
Qed.

Lemma update_blocks_copy (A this : list (Vec SC)) :
  same_shape this A -> update_blocks one A zero this = A.
Proof.
  induction 1 as [|t a this A Hlen _ IH]; cbn; [done|].
  by rewrite update_copy, IH.
Qed.

End Kernels.

(** ** Cutting a vector into blocks and merging it back *)

Section Roundtrip.
Context {SC : Type} `{ScalarTraits SC}.

Lemma covers_spec (ks : list nat) (n p : nat) :
  covers ks n = true -> p < n -> p ∈ ks.
Proof.
  unfold covers. rewrite forallb_forall. intros Hall Hp.
  specialize (Hall p). rewrite in_seq in Hall.
  destruct (existsb_exists (Nat.eqb p) ks) as [Hex _].
  destruct (Hex (Hall ltac:(lia))) as (k & Hin & Heq).
  apply Nat.eqb_eq in Heq. subst k. by apply list_elem_of_In.
Qed.

Lemma length_InsertVector (partial full : Vec SC) (m : list nat) :
  length (InsertVector partial m full) = length full.
Proof.
  revert partial full.
  induction m as [|g m IH]; intros partial full; cbn; [done|].
  by rewrite IH, length_insert.
Qed.

(** Inserting the very entries that were extracted from [v]: whatever
    agreed with [v] still does, and every inserted position now does. *)
Lemma InsertVector_extracted (v full : Vec SC) (m : list nat) (p : nat) :
  length full = length v ->
  full !! p = v !! p \/ p ∈ m ->
  InsertVector (map (fun g => default zero (v !! g)) m) m full !! p = v !! p.
Proof.
  revert full.
  induction m as [|g m IH]; intros full Hlen Hp; cbn [InsertVector map hd tl].
  - destruct Hp as [Hp|Hp]; [done|]. by apply elem_of_nil in Hp.
  - apply IH; [by rewrite length_insert|].
    destruct (decide (p = g)) as [->|Hne].
    + left. destruct (decide (g < length full)) as [Hlt|Hge].
      * rewrite list_lookup_insert_eq by done.
        destruct (lookup_lt_is_Some_2 v g ltac:(lia)) as [x Hx].
        by rewrite Hx.
      * rewrite list_insert_ge by lia.
        rewrite !(lookup_ge_None_2 _ g) by lia. done.
    + rewrite list_lookup_insert_ne by done.
      destruct Hp as [Hp|Hp]; [by left|].
      apply elem_of_cons in Hp as [Hp|Hp]; [done|by right].
Qed.

Lemma length_Merge_from (ms : list (list nat)) (vv : list (Vec SC))
    (full : Vec SC) :
  length (Merge_from ms vv full) = length full.
Proof.
  revert vv full. induction ms as [|m ms IH]; intros vv full; cbn; [done|].
  by rewrite IH, length_InsertVector.
Qed.

Lemma Merge_from_extracted (v full : Vec SC) (ms : list (list nat))
    (p : nat) :
  length full = length v ->
  full !! p = v !! p \/ p ∈ concat ms ->
  Merge_from ms (map (fun m => map (fun g => default zero (v !! g)) m) ms)
    full !! p = v !! p.
Proof.
  revert full.
  induction ms as [|m ms IH]; intros full Hlen Hp; cbn [Merge_from map hd tl].
  - destruct Hp as [Hp|Hp]; [done|]. by apply elem_of_nil in Hp.
  - apply IH; [by rewrite length_InsertVector|].
    destruct Hp as [Hp|Hp].
    + left. apply InsertVector_extracted; auto.
    + cbn in Hp. apply elem_of_app in Hp as [Hp|Hp]; [|by right].
      left. apply InsertVector_extracted; auto.
Qed.

Lemma BlockedMultiVector_ctor_maps (me : MapExtractor) (v : Vec SC) :
  BlockedMultiVector_ctor me v
  = map (fun m => map (fun g => default zero (v !! g)) m) (maps me).
Proof.
  unfold BlockedMultiVector_ctor, NumMaps, ExtractVector.
  apply list_eq. intros i.
  change (map ?f ?l !! i) with ((f <$> l) !! i).
  rewrite !list_lookup_fmap.
  destruct (decide (i < length (maps me))) as [Hlt|Hge].
  - rewrite lookup_seq_lt by done.
    destruct (lookup_lt_is_Some_2 (maps me) i Hlt) as [m Hm].
    cbn. by rewrite Hm.
  - rewrite lookup_seq_ge by lia. by rewrite lookup_ge_None_2 by lia.
Qed.

(** The flattening round trip: when the blocked map covers the vector,
    merging the sub-vectors it was cut into gives the vector back. *)
Lemma Merge_BlockedMultiVector_ctor (me : MapExtractor) (v : Vec SC) :
  partitions me (length v) = true ->
  Merge me (BlockedMultiVector_ctor me v) = v.
Proof.
  unfold partitions. intros Hp. apply andb_prop in Hp as [Hsize Hcov].
  apply Nat.eqb_eq in Hsize. rewrite BlockedMultiVector_ctor_maps.
  unfold Merge. apply list_eq. intros p.
  destruct (decide (p < length v)) as [Hlt|Hge].
  - apply Merge_from_extracted.
    + by rewrite length_replicate.
    + right. eapply covers_spec; eauto.
  - rewrite !lookup_ge_None_2; [done|lia|].
    rewrite length_Merge_from, length_replicate. lia.
Qed.

Lemma InsertVector_zeros (partial : Vec SC) (m : list nat) (n : nat) :
  Forall (fun x => x = zero) partial ->
  InsertVector partial m (replicate n zero) = replicate n zero.
Proof.
  revert partial. induction m as [|g m IH]; intros partial Hz; cbn; [done|].
  destruct Hz as [|x partial Hx Hz]; cbn.
  - rewrite insert_replicate. by apply IH.
  - subst x. rewrite insert_replicate. by apply IH.
Qed.

Lemma Merge_from_zeros (ms : list (list nat)) (vv : list (Vec SC))
    (n : nat) :
  Forall (Forall (fun x => x = zero)) vv ->
  Merge_from ms vv (replicate n zero) = replicate n zero.
Proof.
  revert vv. induction ms as [|m ms IH]; intros vv Hz; cbn; [done|].
  destruct Hz as [|x vv Hx Hz]; cbn.
  - rewrite InsertVector_zeros by constructor. by apply IH.
  - rewrite InsertVector_zeros by done. by apply IH.
Qed.

Lemma putScalar_blocks_zeros (vv : list (Vec SC)) :
  Forall (Forall (fun x => x = zero)) (putScalar_blocks zero vv).
Proof.
  induction vv as [|v vv IH]; constructor; [|done].
  unfold putScalar. apply Forall_forall. intros x Hx.
  apply list_elem_of_In, in_map_iff in Hx as (? & <- & _). done.
Qed.

End Roundtrip.

(** ** Apply without sweeps *)

Section NoSweeps.
Context {SC : Type} `{ScalarTraits SC}.

(** [Apply] on an object that is set up on a block-partitioned operator. *)
Lemma Apply_set_up (s : BlockedGaussSeidelSmoother SC)
    (bA : BlockedCrsMatrix SC) (X B : MultiVector SC)
    (InitialGuessIsZero : bool) :
  IsSetup s = true ->
  A_ s = Some (BlockedCrs bA) ->
  Apply s X B InitialGuessIsZero
  = match bgs_sweeps bA (rangeMapExtractor_ s) (domainMapExtractor_ s)
            (Inverse_ s) (rhs_blocks bA B) (solution_groups bA X)
            (param_Damping_factor s) InitialGuessIsZero
            0%Z (Z.to_nat (param_Sweeps s))
            {| ws_X := initial_sub_vectors bA X InitialGuessIsZero;
               ws_residual := putScalar_blocks zero (rhs_blocks bA B);
               ws_steps := [] |} with
    | inl e => inl e
    | inr w => inr (handed_back bA X (ws_X w), ws_steps w)
    end.
Proof.
  intros Hset HA. unfold Apply. rewrite Hset, HA. reflexivity.
Qed.

Lemma configured_set_up (s : BlockedGaussSeidelSmoother SC)
    (bA : BlockedCrsMatrix SC) (rme dme : MapExtractor) :
  configured s = Some (bA, rme, dme) ->
  IsSetup s = true /\ A_ s = Some (BlockedCrs bA)
  /\ rangeMapExtractor_ s = Some rme /\ domainMapExtractor_ s = Some dme.
Proof.
  unfold configured. destruct (IsSetup s); [|done].
  destruct (A_ s) as [[f|bA']|]; cbn; try done.
  destruct (rangeMapExtractor_ s), (domainMapExtractor_ s); cbn; try done.
  by intros [= -> -> ->].
Qed.

(** [Apply] on an object that is not set up raises at its first line. *)
Lemma Apply_before_Setup (s : BlockedGaussSeidelSmoother SC)
    (X B : MultiVector SC) (InitialGuessIsZero : bool) :
  IsSetup s = false ->
  Apply s X B InitialGuessIsZero
  = inl (RuntimeError Setup_has_not_been_called).
Proof. intros Hset. unfold Apply. by rewrite Hset. Qed.

Lemma covers_seq (n : nat) : covers (seq 0 n) n = true.
Proof.
  unfold covers. apply forallb_forall. intros p Hp.
  apply existsb_exists. exists p. split; [done|]. apply Nat.eqb_refl.
Qed.

Lemma concat_plain_groups (n : nat) : concat (plain_groups n) = seq 0 n.
Proof.
  unfold plain_groups. generalize 0.
  induction n as [|n IH]; intros a; cbn; [done|]. by rewrite IH.
Qed.

(** A block-partitioned [X] handed to an operator without a reordering
    plan needs no cutting at all. *)
Lemma reconcilable_blocked_plain (bA : BlockedCrsMatrix SC)
    (vv : list (Vec SC)) :
  reordered bA = None -> reconcilable bA (BlockedMV vv) = true.
Proof.
  intros Hplain. unfold reconcilable, top_level_blocks. rewrite Hplain.
  cbn [fmap option_fmap option_map reconcile sub_vectors].
  rewrite concat_plain_groups, covers_seq. done.
Qed.

(** Where a view names a sub-vector, [putScalar] has overwritten it. *)
Lemma view_putScalar_lookup (c : SC) (ks : list nat) (st : list (Vec SC))
    (j : nat) :
  view_putScalar c ks st !! j
  = if decide (j ∈ ks) then putScalar c <$> st !! j else st !! j.
Proof.
  revert st. induction ks as [|k ks IH]; intros st; cbn [view_putScalar].
  - destruct (decide (j ∈ [])) as [Hin|_]; [|done].
    by apply elem_of_nil in Hin.
  - rewrite IH. destruct (decide (j = k)) as [->|Hne].
    + rewrite list_lookup_alter_eq.
      rewrite (decide_True (P := k ∈ k :: ks)) by (apply elem_of_cons; auto).
      destruct (decide (k ∈ ks)); [|done].
      destruct (st !! k) as [x|]; cbn; [|done].
      f_equal. unfold putScalar. rewrite map_map. done.
    + rewrite list_lookup_alter_ne by done.
      destruct (decide (j ∈ ks)) as [Hin|Hnin].
      * rewrite decide_True; [done|]. apply elem_of_cons; auto.
      * rewrite decide_False; [done|].
        intros Hin. apply elem_of_cons in Hin as [?|?]; done.
Qed.

Lemma view_putScalar_covering (c : SC) (ks : list nat)
    (st : list (Vec SC)) :
  covers ks (length st) = true ->
  view_putScalar c ks st = putScalar_blocks c st.
Proof.
  intros Hcov. apply list_eq. intros j. rewrite view_putScalar_lookup.
  unfold putScalar_blocks.
  change (map (putScalar c) st) with (putScalar c <$> st).
  rewrite list_lookup_fmap.
  destruct (decide (j ∈ ks)) as [|Hnin]; [done|].
  destruct (decide (j < length st)) as [Hlt|Hge].
  - destruct Hnin. eapply covers_spec; eauto.
  - by rewrite lookup_ge_None_2 by lia.
Qed.

(** What the reset and the copy back amount to on a vector the operator
    can cut and put together again. *)
Lemma without_sweeps_reconcilable `{!ScalarLaws SC}
    (bA : BlockedCrsMatrix SC) (X : MultiVector SC)
    (InitialGuessIsZero : bool) :
  reconcilable bA X = true ->
  without_sweeps bA X InitialGuessIsZero
  = if InitialGuessIsZero then zero_reset X else X.
Proof.
  unfold reconcilable, without_sweeps, handed_back, initial_sub_vectors,
    solution_groups.
  intros Hrec. apply andb_prop in Hrec as [Hcov Hpart].
  destruct InitialGuessIsZero.
  - rewrite view_putScalar_covering by done.
    destruct X as [v|vv]; cbn [zero_reset]; [|by destruct (reordered bA)].
    assert (Hcopy : bCopyResult
              (reconcile (getDomainMapExtractor bA)
                 (native_BlockedDomainMap <$> reordered bA) (FlatMV v))
            = true) by (by destruct (reordered bA)).
    rewrite Hcopy. f_equal.
    unfold partitions in Hpart. apply andb_prop in Hpart as [Hsize _].
    apply Nat.eqb_eq in Hsize.
    unfold Merge. rewrite Merge_from_zeros by apply putScalar_blocks_zeros.
    rewrite Hsize, update_copy by (by rewrite length_replicate).
    by rewrite putScalar_replicate.
  - destruct X as [v|vv]; [|by destruct (reordered bA)].
    assert (Hshape : bCopyResult
              (reconcile (getDomainMapExtractor bA)
                 (native_BlockedDomainMap <$> reordered bA) (FlatMV v))
            = true
            /\ sub_vectors
              (reconcile (getDomainMapExtractor bA)
                 (native_BlockedDomainMap <$> reordered bA) (FlatMV v))
            = BlockedMultiVector_ctor
                (blocked_map
                   (reconcile (getDomainMapExtractor bA)
                      (native_BlockedDomainMap <$> reordered bA) (FlatMV v)))
                v) by (by destruct (reordered bA)).
    destruct Hshape as [-> ->].
    rewrite Merge_BlockedMultiVector_ctor by done.
    by rewrite update_copy.
Qed.

(** C7.  With a sweep count of zero, [Apply] on a set-up smoother returns
    without a single pass, and [X] is what it was, or all zero when
    [InitialGuessIsZero] is set.  This holds for a block-partitioned [X],
    whose sub-vectors are worked on in place, and for a flat [X], which is
    cut into sub-vectors and merged back, given that the blocked map covers
    it (the merge then reproduces its entries). *)
Theorem Apply_zero_sweeps `{!ScalarLaws SC}
    (s : BlockedGaussSeidelSmoother SC) (bA : BlockedCrsMatrix SC)
    (X B : MultiVector SC) (InitialGuessIsZero : bool) :
  IsSetup s = true ->
  A_ s = Some (BlockedCrs bA) ->
  param_Sweeps s = 0%Z ->
  reconcilable bA X = true ->
  Apply s X B InitialGuessIsZero
  = inr (if InitialGuessIsZero then zero_reset X else X, []).
Proof.
  intros Hset HA Hsweeps Hrec.
  rewrite (Apply_set_up _ _ _ _ _ Hset HA), Hsweeps. cbn [Z.to_nat bgs_sweeps].
  rewrite <- (without_sweeps_reconcilable bA X InitialGuessIsZero Hrec).
  reflexivity.
Qed.

(** C10.  A negative sweep count makes the guard [run < nSweeps] of the
    outer loop false at once: [Apply] behaves as with a count of zero, no
    pass is made, and [X] is touched by the reset of the zero initial
    guess, when requested, and by the copy back, when it came in flat, and
    by nothing else. *)
Theorem Apply_negative_sweeps
    (s : BlockedGaussSeidelSmoother SC) (bA : BlockedCrsMatrix SC)
    (X B : MultiVector SC) (InitialGuessIsZero : bool) :
  (param_Sweeps s < 0)%Z ->
  IsSetup s = true ->
  A_ s = Some (BlockedCrs bA) ->
  Apply s X B InitialGuessIsZero
  = Apply (SetParameters (param_Damping_factor s) 0%Z s) X B InitialGuessIsZero
  /\ Apply s X B InitialGuessIsZero
     = inr (without_sweeps bA X InitialGuessIsZero, []).
Proof.
  intros Hneg Hset HA.
  rewrite (Apply_set_up s bA) by done.
  rewrite (Apply_set_up (SetParameters _ _ s) bA) by done.
  cbn [SetParameters param_Sweeps param_Damping_factor Inverse_
       rangeMapExtractor_ domainMapExtractor_].
  replace (Z.to_nat (param_Sweeps s)) with 0 by lia.
  done.
Qed.

End NoSweeps.

(** ** The sweep loops *)

Section Loops.
Context {SC : Type} `{ScalarTraits SC}.
Variable bA : BlockedCrsMatrix SC.
Variables rme dme : MapExtractor.
Variable Inverse : list (SmootherBase SC).
Variable rcpB : list (Vec SC).
Variable groups : list (list nat).
Variable omega : SC.
Variable InitialGuessIsZero : bool.

Local Abbreviation pass :=
  (bgs_block_row bA rcpB groups omega InitialGuessIsZero dme).
Local Abbreviation rows :=
  (bgs_block_rows bA (Some rme) (Some dme) rcpB groups omega
     InitialGuessIsZero).
Local Abbreviation sweeps :=
  (bgs_sweeps bA (Some rme) (Some dme) Inverse rcpB groups omega
     InitialGuessIsZero).

(** Loop invariants for the inner loop: with both extractors bound it runs
    to its end, through one pass per sub-smoother. *)
Lemma bgs_block_rows_invariant (I : nat -> Workspace SC -> Prop)
    (run : Z) (rest : list (SmootherBase SC)) (i0 : nat) (w : Workspace SC) :
  (forall k Smoo w, rest !! k = Some Smoo -> I k w ->
     I (S k) (pass run (i0 + k) Smoo w)) ->
  I 0 w ->
  exists w', rows run i0 rest w = inr w' /\ I (length rest) w'.
Proof.
  revert I i0 w.
  induction rest as [|Smoo rest IH]; intros I i0 w Hstep H0; cbn.
  - by exists w.
  - apply (IH (fun k => I (S k)) (S i0)).
    + intros k Smoo' w' Hk HI.
      replace (S i0 + k) with (i0 + S k) by lia. by apply Hstep.
    + specialize (Hstep 0 Smoo w eq_refl H0).
      by rewrite Nat.add_0_r in Hstep.
Qed.

(** Loop invariants for the outer loop. *)
Lemma bgs_sweeps_invariant (J : nat -> Workspace SC -> Prop)
    (todo : nat) (run0 : nat) (w : Workspace SC) :
  (forall r w w', J r w ->
     rows (Z.of_nat (run0 + r)) 0 Inverse w = inr w' -> J (S r) w') ->
  J 0 w ->
  exists w', sweeps (Z.of_nat run0) todo w = inr w' /\ J todo w'.
Proof.
  revert J run0 w.
  induction todo as [|todo IH]; intros J run0 w Hstep H0; cbn.
  - by exists w.
  - destruct (bgs_block_rows_invariant (fun _ _ => True)
                (Z.of_nat run0) Inverse 0 w) as (w1 & Hw1 & _); [done..|].
    rewrite Hw1.
    replace (Z.of_nat run0 + 1)%Z with (Z.of_nat (S run0)) by lia.
    apply (IH (fun r => J (S r)) (S run0)).
    + intros r w' w'' HJ Hrows. apply (Hstep (S r) w' w''); [done|].
      by replace (run0 + S r) with (S run0 + r) by lia.
    + apply (Hstep 0 w w1 H0). by rewrite Nat.add_0_r.
Qed.


End Loops.

(** ** What every pass does *)

Section Passes.
Context {SC : Type} `{ScalarTraits SC}.

Lemma passes_in_order_S (nSweeps N : nat) :
  passes_in_order (S nSweeps) N
  = passes_in_order nSweeps N
    ++ map (fun i => (Z.of_nat nSweeps, i)) (seq 0 N).
Proof.
  unfold passes_in_order. rewrite seq_S, flat_map_app. cbn.
  by rewrite app_nil_r.
Qed.

Lemma length_passes_in_order (nSweeps N : nat) :
  length (passes_in_order nSweeps N) = nSweeps * N.
Proof.
  induction nSweeps as [|k IH]; [done|].
  rewrite passes_in_order_S, length_app, IH, length_map, length_seq. lia.
Qed.

(** With both extractors bound the two loops run to their end and make
    their passes sweep by sweep, row by row. *)
Lemma bgs_sweeps_passes (bA : BlockedCrsMatrix SC) (rme dme : MapExtractor)
    (Inverse : list (SmootherBase SC)) (rcpB : list (Vec SC))
    (groups : list (list nat)) (omega : SC) (InitialGuessIsZero : bool)
    (todo : nat) (w : Workspace SC) :
  exists w',
    bgs_sweeps bA (Some rme) (Some dme) Inverse rcpB groups omega
      InitialGuessIsZero 0%Z todo w = inr w'
    /\ map (fun e => (step_run e, step_row e)) (ws_steps w')
       = map (fun e => (step_run e, step_row e)) (ws_steps w)
         ++ passes_in_order todo (length Inverse).
Proof.
  set (key := fun e : SweepStep SC => (step_run e, step_row e)).
  apply (bgs_sweeps_invariant bA rme dme Inverse rcpB groups omega
           InitialGuessIsZero
           (fun r w' => map key (ws_steps w')
                        = map key (ws_steps w)
                          ++ passes_in_order r (length Inverse))
           todo 0 w).
  - intros r w1 w2 Hw1 Hrows.
    destruct (bgs_block_rows_invariant bA rme dme rcpB groups omega
                InitialGuessIsZero
                (fun k w' => map key (ws_steps w')
                             = map key (ws_steps w)
                               ++ passes_in_order r (length Inverse)
                               ++ map (fun i => (Z.of_nat r, i)) (seq 0 k))
                (Z.of_nat (0 + r)) Inverse 0 w1) as (w3 & Hw3 & HI).
    + intros k Smoo w' _ Hw'. unfold bgs_block_row. cbn [ws_steps].
      rewrite map_app, Hw', seq_S, map_app, <- !app_assoc. done.
    + cbn. by rewrite app_nil_r.
    + rewrite Hrows in Hw3. injection Hw3 as <-.
      by rewrite passes_in_order_S.
  - cbn. by rewrite app_nil_r.
Qed.


(** Block [row] of what [bgs_apply] leaves in [Y]: the row contribution,
    scaled, added to the scaled block. *)
Lemma bgs_apply_row (bA : BlockedCrsMatrix SC) (X Y : list (Vec SC))
    (row : nat) (alpha beta : SC) :
  bgs_apply bA X Y row alpha beta !! row
  = update alpha (row_contribution bA X row) beta <$> Y !! row.
Proof.
  unfold bgs_apply. rewrite lookup_update_blocks.
  destruct (Y !! row) as [y|] eqn:Hy; cbn; [|done].
  rewrite list_lookup_insert_eq; [done|].
  unfold putScalar_blocks. rewrite length_map.
  by eapply lookup_lt_Some.
Qed.

(** With a damping factor of zero, a damped update writes back what it
    read. *)
Lemma view_update_nothing `{!ScalarLaws SC} (A : Vec SC) (g : list nat)
    (st : list (Vec SC)) :
  view_update zero A g st = st.
Proof.
  revert A. induction g as [|k g IH]; intros A; cbn [view_update]; [done|].
  rewrite update_nothing, list_insert_id'; [apply IH|].
  intros Hk. destruct (lookup_lt_is_Some_2 st k Hk) as [x Hx].
  by rewrite Hx.
Qed.

(** C8, as the code has it.  With a damping factor of zero every damped
    update adds nothing, so after all the sweeps (they do run: one pass per
    block row and sweep) [X] holds what it held when the first sweep
    started: its entry values, or zeros when [InitialGuessIsZero] had them
    reset before the first sweep. *)
Theorem Apply_zero_damping `{!ScalarLaws SC}
    (s : BlockedGaussSeidelSmoother SC) (bA : BlockedCrsMatrix SC)
    (rme dme : MapExtractor) (X B : MultiVector SC)
    (InitialGuessIsZero : bool) :
  configured s = Some (bA, rme, dme) ->
  param_Damping_factor s = zero ->
  reconcilable bA X = true ->
  exists steps,
    Apply s X B InitialGuessIsZero
    = inr (if InitialGuessIsZero then zero_reset X else X, steps)
    /\ length steps = Z.to_nat (param_Sweeps s) * length (Inverse_ s).
Proof.
  intros Hconf Homega Hrec.
  apply configured_set_up in Hconf as (Hset & HA & Hrme & Hdme).
  rewrite (Apply_set_up _ _ _ _ _ Hset HA), Hrme, Hdme, Homega.
  set (x0 := initial_sub_vectors bA X InitialGuessIsZero).
  set (N := length (Inverse_ s)).
  destruct (bgs_sweeps_invariant bA rme dme (Inverse_ s) (rhs_blocks bA B)
              (solution_groups bA X) zero InitialGuessIsZero
              (fun r w => ws_X w = x0 /\ length (ws_steps w) = r * N)
              (Z.to_nat (param_Sweeps s)) 0
              {| ws_X := x0;
                 ws_residual := putScalar_blocks zero (rhs_blocks bA B);
                 ws_steps := [] |})
    as (w' & Hw' & HJ); [|done|].
  - intros r w1 w2 [HX1 Hlen1] Hrows.
    destruct (bgs_block_rows_invariant bA rme dme (rhs_blocks bA B)
                (solution_groups bA X) zero InitialGuessIsZero
                (fun k w => ws_X w = x0 /\ length (ws_steps w) = r * N + k)
                (Z.of_nat (0 + r)) (Inverse_ s) 0 w1)
      as (w3 & Hw3 & HI3).
    + intros k Smoo w _ [HXw Hlenw]. unfold bgs_block_row.
      cbn [ws_X ws_steps]. rewrite view_update_nothing, length_app.
      cbn. split; [done|lia].
    + split; [done|lia].
    + rewrite Hrows in Hw3. injection Hw3 as ->.
      destruct HI3 as [HX3 Hlen3]. split; [done|]. fold N in Hlen3. lia.
  - destruct HJ as [HX Hlen].
    change 0%Z with (Z.of_nat 0). rewrite Hw'.
    exists (ws_steps w'). split; [|done].
    rewrite HX. subst x0.
    by rewrite <- (without_sweeps_reconcilable bA X InitialGuessIsZero Hrec).
Qed.



End Passes.

(** ** Updates through a view *)

Section ViewUpdates.
Context {SC : Type} `{ScalarTraits SC}.








(** Without a reordering plan the top-level blocks are the sub-vectors
    themselves, each once. *)
Lemma distinct_blocks_plain (bA : BlockedCrsMatrix SC) (X : MultiVector SC) :
  reordered bA = None -> distinct_blocks bA X = true.
Proof.
  intros Hplain. apply bool_decide_eq_true.
  unfold solution_groups, top_level_blocks. rewrite Hplain.
  cbn [fmap option_fmap option_map]. rewrite concat_plain_groups.
  apply NoDup_seq.
Qed.

End ViewUpdates.

(** ** The order of a sweep *)

Section GaussSeidel.
Context {SC : Type} `{ScalarTraits SC}.






End GaussSeidel.

(** ** The system of [Example], run *)

Section Runs.
Import Example.
Local Open Scope Z_scope.


(** The same run on the reordered operator, whose plan regroups three
    native sub-vectors into the two blocks: the same result. *)
Lemma Apply_one_sweep_reordered :
  Apply reordered_smoother (FlatMV [7; 8; 9]) (FlatMV [1; 2; 3]) true
  = Apply smoother (FlatMV [7; 8; 9]) (FlatMV [1; 2; 3]) true.
Proof. reflexivity. Qed.

Lemma AddFactoryManager_negative_position_witness :
  (-1 < 0)%Z
  /\ result (AddFactoryManager manager1 (-1) prototype)
     = inl (RuntimeError pos_must_not_be_negative)
  /\ object (AddFactoryManager manager1 (-1) prototype) = prototype
  /\ FactManager_ (object (AddFactoryManager manager1 (-1) prototype))
     = FactManager_ prototype
  /\ warnings (AddFactoryManager manager1 (-1) prototype) = [].
Proof.
  split; [lia|].
  apply (AddFactoryManager_negative_position manager1 (-1) prototype). lia.
Defined.

(** One registered manager against two block rows: [Setup] raises, and
    the object it leaves is not the object it was given. *)
Lemma Setup_mismatch_commits_operator :
  result (Setup level short_prototype)
  = inl (RuntimeError (block_rows_do_not_match 2 1))
  /\ object (Setup level short_prototype) <> short_prototype.
Proof.
  split; [reflexivity|].
  intros Heq. apply (f_equal A_) in Heq. vm_compute in Heq. discriminate.
Qed.

Lemma Setup_succeeds_iff_block_counts_match_witness :
  Level_Get_A level (param_A short_prototype) = Some (BlockedCrs operator)
  /\ dependencies_ready level (FactManager_ short_prototype) = true
  /\ let n := length (FactManager_ short_prototype) in
     let o := Setup level short_prototype in
     (result o = inr tt <-> Rows operator = n /\ Cols operator = n)
     /\ (result o = inr tt -> IsSetup (object o) = true)
     /\ (Rows operator <> n ->
         result o
         = inl (RuntimeError (block_rows_do_not_match (Rows operator) n)))
     /\ (Rows operator = n -> Cols operator <> n ->
         result o
         = inl (RuntimeError (block_cols_do_not_match (Cols operator) n)))
     /\ (result o <> inr tt ->
         object o = set_A_ (Some (BlockedCrs operator)) short_prototype
         /\ IsSetup (object o) = IsSetup short_prototype
         /\ Inverse_ (object o) = Inverse_ short_prototype
         /\ bIsBlockedOperator_ (object o)
            = bIsBlockedOperator_ short_prototype
         /\ rangeMapExtractor_ (object o)
            = rangeMapExtractor_ short_prototype
         /\ domainMapExtractor_ (object o)
            = domainMapExtractor_ short_prototype).
Proof.
  split; [reflexivity|]. split; [reflexivity|].
  apply (Setup_succeeds_iff_block_counts_match level short_prototype
           operator); reflexivity.
Defined.

(** C5 on the smallest input: one block row, one registered manager,
    [Setup] twice on the same level.  The second call succeeds and only
    warns, but it leaves two bound sub-smoothers and two flags where a
    single [Setup] leaves one of each; the inner loop of [Apply], bounded
    by the number of bound sub-smoothers, then runs past the one block row
    of the operator. *)
Theorem Setup_twice_binds_every_row_twice :
  result (Setup level1 set_up_once) = inr tt
  /\ warnings (Setup level1 set_up_once) = [Setup_has_already_been_called]
  /\ length (Inverse_ set_up_once) = 1%nat
  /\ length (Inverse_ set_up_twice) = 2%nat
  /\ bIsBlockedOperator_ set_up_once = [false]
  /\ bIsBlockedOperator_ set_up_twice = [false; false]
  /\ set_up_twice <> set_up_once.
Proof.
  repeat split; try reflexivity.
  intros Heq. apply (f_equal bIsBlockedOperator_) in Heq.
  vm_compute in Heq. discriminate.
Qed.

(** The copy of a smoother that is set up is set up. *)
Lemma Copy_of_set_up_smoother :
  ~ carries_no_bound_state (Copy smoother).
Proof. intros (Hset & _). vm_compute in Hset. discriminate. Qed.

Lemma Copy_carries_configuration_and_state_witness :
  shares_configuration smoother (Copy smoother)
  /\ IsSetup (Copy smoother) = IsSetup smoother
  /\ A_ (Copy smoother) = A_ smoother
  /\ Inverse_ (Copy smoother) = Inverse_ smoother
  /\ bIsBlockedOperator_ (Copy smoother) = bIsBlockedOperator_ smoother
  /\ rangeMapExtractor_ (Copy smoother) = rangeMapExtractor_ smoother
  /\ domainMapExtractor_ (Copy smoother) = domainMapExtractor_ smoother
  /\ (carries_no_bound_state smoother ->
      carries_no_bound_state (Copy smoother))
  /\ (IsSetup smoother = true ->
      IsSetup (Copy smoother) = true
      /\ configured (Copy smoother) = configured smoother).
Proof. apply (Copy_carries_configuration_and_state smoother). Defined.





Lemma Apply_zero_sweeps_witness :
  IsSetup (SetParameters 1 0 smoother) = true
  /\ A_ (SetParameters 1 0 smoother) = Some (BlockedCrs operator)
  /\ param_Sweeps (SetParameters 1 0 smoother) = 0
  /\ reconcilable operator (FlatMV [7; 8; 9]) = true
  /\ Apply (SetParameters 1 0 smoother) (FlatMV [7; 8; 9])
       (FlatMV [1; 2; 3]) true
     = inr (zero_reset (FlatMV [7; 8; 9]), []).
Proof.
  repeat (split; [reflexivity|]).
  apply (Apply_zero_sweeps (SetParameters 1 0 smoother) operator
           (FlatMV [7; 8; 9]) (FlatMV [1; 2; 3]) true); reflexivity.
Defined.

(** Damping factor zero, two sweeps, zero initial guess requested: [X]
    comes back as zeros, not as it was. *)
Lemma Apply_zero_damping_resets :
  ~ (exists steps,
       Apply (SetParameters 0%Z 2 smoother) (FlatMV [7; 8; 9])
         (FlatMV [1; 2; 3]) true
       = inr (FlatMV [7; 8; 9], steps)).
Proof. intros (steps & Heq). vm_compute in Heq. discriminate. Qed.

Lemma Apply_zero_damping_witness :
  configured (SetParameters 0%Z 2 smoother)
  = Some (operator, extractor, extractor)
  /\ param_Damping_factor (SetParameters 0%Z 2 smoother) = zero
  /\ reconcilable operator (FlatMV [7; 8; 9]) = true
  /\ exists steps,
       Apply (SetParameters 0%Z 2 smoother) (FlatMV [7; 8; 9])
         (FlatMV [1; 2; 3]) true
       = inr (zero_reset (FlatMV [7; 8; 9]), steps)
       /\ length steps
          = (Z.to_nat (param_Sweeps (SetParameters 0%Z 2 smoother))
             * length (Inverse_ (SetParameters 0%Z 2 smoother)))%nat.
Proof.
  repeat (split; [reflexivity|]).
  apply (Apply_zero_damping (SetParameters 0%Z 2 smoother) operator
           extractor extractor (FlatMV [7; 8; 9]) (FlatMV [1; 2; 3]) true);
    reflexivity.
Defined.

Lemma Apply_negative_sweeps_witness :
  (param_Sweeps (SetParameters 1 (-3) smoother) < 0)%Z
  /\ IsSetup (SetParameters 1 (-3) smoother) = true
  /\ A_ (SetParameters 1 (-3) smoother) = Some (BlockedCrs operator)
  /\ Apply (SetParameters 1 (-3) smoother) (FlatMV [7; 8; 9])
       (FlatMV [1; 2; 3]) true
     = Apply (SetParameters
                (param_Damping_factor (SetParameters 1 (-3) smoother)) 0
                (SetParameters 1 (-3) smoother))
         (FlatMV [7; 8; 9]) (FlatMV [1; 2; 3]) true
  /\ Apply (SetParameters 1 (-3) smoother) (FlatMV [7; 8; 9])
       (FlatMV [1; 2; 3]) true
     = inr (without_sweeps operator (FlatMV [7; 8; 9]) true, []).
Proof.
  split; [cbn; lia|]. split; [reflexivity|]. split; [reflexivity|].
  apply (Apply_negative_sweeps (SetParameters 1 (-3) smoother) operator
           (FlatMV [7; 8; 9]) (FlatMV [1; 2; 3]) true);
    [cbn; lia|reflexivity|reflexivity].
Defined.

End Runs.

(** * Further properties of the code *)

(** ** Registration, continued *)

Section RegistrationMore.
Context {SC : Type} `{ScalarTraits SC}.

(** What [AddFactoryManager] does for a position that is not negative. *)
Lemma AddFactoryManager_run (FactManager : FactoryManagerBase) (pos : Z)
    (s : BlockedGaussSeidelSmoother SC) :
  (0 <= pos)%Z ->
  AddFactoryManager FactManager pos s
  = {| result := inr tt;
       object :=
         set_FactManager_
           (if Z.to_nat pos <? length (FactManager_ s)
            then <[Z.to_nat pos := FactManager]> (FactManager_ s)
            else FactManager_ s ++ [FactManager]) s;
       warnings :=
         if length (FactManager_ s) <? Z.to_nat pos
         then [cannot_add_at_proper_position pos] else [] |}.
Proof.
  intros Hpos. unfold AddFactoryManager, TEST_FOR_EXCEPTION, bind.
  assert (E1 : (pos <? 0)%Z = false) by lia.
  rewrite E1. cbn -[Nat.ltb Nat.eqb].
  destruct (Nat.ltb_spec (Z.to_nat pos) (length (FactManager_ s)))
    as [Hlt|Hge].
  - cbn -[Nat.ltb]. by rewrite (proj2 (Nat.ltb_ge _ _)) by lia.
  - destruct (Nat.eqb_spec (Z.to_nat pos) (length (FactManager_ s)))
      as [Heq|Hne]; cbn -[Nat.ltb].
    + by rewrite (proj2 (Nat.ltb_ge _ _)) by lia.
    + by rewrite (proj2 (Nat.ltb_lt _ _)) by lia.
Qed.

(** X1.  Registering at a position that already holds a manager replaces
    that manager: the call succeeds without a warning, the registry keeps
    its size, the position now holds the new manager, every other position
    holds what it held, and no other member of the object changes. *)
Theorem AddFactoryManager_replaces (FactManager : FactoryManagerBase)
    (pos : Z) (s : BlockedGaussSeidelSmoother SC) :
  (0 <= pos < Z.of_nat (length (FactManager_ s)))%Z ->
  let o := AddFactoryManager FactManager pos s in
  result o = inr tt
  /\ warnings o = []
  /\ length (FactManager_ (object o)) = length (FactManager_ s)
  /\ FactManager_ (object o) !! Z.to_nat pos = Some FactManager
  /\ (forall j, j <> Z.to_nat pos ->
        FactManager_ (object o) !! j = FactManager_ s !! j)
  /\ object o = set_FactManager_ (FactManager_ (object o)) s.
Proof.
  intros Hpos o. subst o. rewrite AddFactoryManager_run by lia.
  rewrite (proj2 (Nat.ltb_lt _ _)) by lia.
  rewrite (proj2 (Nat.ltb_ge _ _)) by lia.
  cbn. split; [done|]. split; [done|].
  split; [by rewrite length_insert|].
  split; [apply list_lookup_insert_eq; lia|].
  split; [|done].
  intros j Hj. by apply list_lookup_insert_ne.
Qed.

(** X2.  Registering at the end of the registry or anywhere past it
    appends: the call succeeds, the registry grows by one, the new manager
    sits at the old size, the managers before it are kept, and no other
    member changes.  Past the end the requested position stays empty and
    one warning is written; at the end none is. *)
Theorem AddFactoryManager_appends (FactManager : FactoryManagerBase)
    (pos : Z) (s : BlockedGaussSeidelSmoother SC) :
  (Z.of_nat (length (FactManager_ s)) <= pos)%Z ->
  let o := AddFactoryManager FactManager pos s in
  let n := length (FactManager_ s) in
  result o = inr tt
  /\ FactManager_ (object o) = FactManager_ s ++ [FactManager]
  /\ FactManager_ (object o) !! n = Some FactManager
  /\ (Z.of_nat n < pos ->
      FactManager_ (object o) !! Z.to_nat pos = None)%Z
  /\ warnings o
     = (if (Z.of_nat n <? pos)%Z
        then [cannot_add_at_proper_position pos] else [])
  /\ object o = set_FactManager_ (FactManager_ (object o)) s.
Proof.
  intros Hpos o n. subst o n. rewrite AddFactoryManager_run by lia.
  rewrite (proj2 (Nat.ltb_ge _ _)) by lia. cbn -[Nat.ltb].
  split; [done|]. split; [done|].
  split; [by rewrite lookup_app_r, Nat.sub_diag by lia|].
  split.
  { intros Hlt. apply lookup_ge_None_2. rewrite length_app. cbn. lia. }
  split; [|done].
  destruct (Z.ltb_spec (Z.of_nat (length (FactManager_ s))) pos).
  - by rewrite (proj2 (Nat.ltb_lt _ _)) by lia.
  - by rewrite (proj2 (Nat.ltb_ge _ _)) by lia.
Qed.

Lemma AddFactoryManagers_run (fms : list FactoryManagerBase)
    (s : BlockedGaussSeidelSmoother SC) :
  AddFactoryManagers (Z.of_nat (length (FactManager_ s))) fms s
  = {| result := inr tt;
       object := set_FactManager_ (FactManager_ s ++ fms) s;
       warnings := [] |}.
Proof.
  revert s. induction fms as [|fm fms IH]; intros s; cbn [AddFactoryManagers].
  - unfold ret. rewrite app_nil_r. by destruct s.
  - unfold bind. rewrite AddFactoryManager_run by lia.
    rewrite Nat2Z.id, Nat.ltb_irrefl. cbn [result object warnings].
    set (s1 := set_FactManager_ (FactManager_ s ++ [fm]) s).
    replace (Z.of_nat (length (FactManager_ s)) + 1)%Z
      with (Z.of_nat (length (FactManager_ s1)))
      by (subst s1; cbn; rewrite length_app; cbn; lia).
    rewrite IH. subst s1. cbn. by rewrite <- app_assoc.
Qed.

(** X3.  Registering the managers of a list one after the other, each at
    the next free position, leaves the registry extended by that list in
    that order, writes no warning and changes no other member: manager
    [i] of the list is the one block row [size + i] will be bound with. *)
Theorem AddFactoryManagers_in_order (fms : list FactoryManagerBase)
    (s : BlockedGaussSeidelSmoother SC) :
  let o := AddFactoryManagers (Z.of_nat (length (FactManager_ s))) fms s in
  result o = inr tt
  /\ warnings o = []
  /\ FactManager_ (object o) = FactManager_ s ++ fms
  /\ (forall i, FactManager_ (object o) !! (length (FactManager_ s) + i)
                = fms !! i)
  /\ object o = set_FactManager_ (FactManager_ s ++ fms) s.
Proof.
  intros o. subst o. rewrite AddFactoryManagers_run. cbn.
  repeat split; try done.
  intros i. rewrite lookup_app_r by lia. f_equal. lia.
Qed.

End RegistrationMore.

(** ** DeclareInput and Setup, continued *)

Section SetupMore.
Context {SC : Type} `{ScalarTraits SC}.

Lemma with_block_rows_push_Inverse (Smoo : SmootherBase SC)
    (s : BlockedGaussSeidelSmoother SC) :
  push_back_Inverse_ Smoo s = with_block_rows [Smoo] [] s.
Proof. unfold with_block_rows, push_back_Inverse_. by rewrite app_nil_r. Qed.

(** The loop of [Setup] on any level: it stops at the first manager whose
    sub-smoother or diagonal block the level does not hold, and what it
    has appended by then stays appended. *)
Lemma Setup_block_rows_outcome (currentLevel : Level SC)
    (fms : list FactoryManagerBase) :
  exists smoos flags,
    (forall s, Setup_block_rows currentLevel fms s
       = {| result :=
              if dependencies_ready currentLevel fms then inr tt
              else inl Level_data_not_available;
            object := with_block_rows smoos flags s;
            warnings := [] |})
    /\ (forall i, i < length smoos ->
          smoos !! i
          = fms !! i ≫= fun fm =>
              Level_Get_PreSmoother currentLevel (GetFactory_Smoother fm))
    /\ (forall i, i < length flags ->
          flags !! i
          = fms !! i ≫= fun fm =>
              (fun Aii => bool_decide (is_Some (as_BlockedCrsMatrix Aii)))
              <$> Level_Get_A currentLevel (GetFactory_A fm))
    /\ (if dependencies_ready currentLevel fms
        then length smoos = length fms /\ length flags = length fms
        else length flags < length fms
             /\ length flags <= length smoos <= S (length flags)).
Proof.
  induction fms as [|fm fms IH].
  - exists [], []. cbn. split; [|split; [|split]]; try done; try (intros; lia).
    intros s. by rewrite with_block_rows_nil.
  - cbn [dependencies_ready forallb Setup_block_rows].
    destruct (Level_Get_PreSmoother currentLevel (GetFactory_Smoother fm))
      as [Smoo|] eqn:HS.
    2:{ exists [], []. cbn. split; [|split; [|split]];
          try done; try (intros; lia).
        intros s. by rewrite with_block_rows_nil. }
    destruct (Level_Get_A currentLevel (GetFactory_A fm)) as [Aii|] eqn:HA.
    2:{ exists [Smoo], []. cbn. split; [|split; [|split]];
          try (intros; lia).
        - intros s. unfold bind. cbn.
          by rewrite with_block_rows_push_Inverse.
        - intros [|i] Hi; cbn in *; [by rewrite HS|lia]. }
    destruct IH as (smoos & flags & Hrun & Hsm & Hfl & Hlen).
    exists (Smoo :: smoos),
      (bool_decide (is_Some (as_BlockedCrsMatrix Aii)) :: flags).
    split; [|split; [|split]].
    + intros s. unfold bind. cbn. rewrite Hrun. cbn.
      rewrite with_block_rows_push. reflexivity.
    + intros [|i] Hi; cbn in *; [by rewrite HS|]. apply Hsm. lia.
    + intros [|i] Hi; cbn in *; [by rewrite HA|]. apply Hfl. lia.
    + cbn. change (forallb _ fms) with (dependencies_ready currentLevel fms).
      destruct (dependencies_ready currentLevel fms); cbn; lia.
Qed.

Lemma Level_holds_block_rows (currentLevel : Level SC)
    (fms : list FactoryManagerBase) :
  forallb (Level_holds currentLevel) (DeclareInput_block_rows fms)
  = dependencies_ready currentLevel fms.
Proof.
  induction fms as [|fm fms IH]; cbn; [done|].
  rewrite IH. by rewrite andb_assoc.
Qed.

(** How [Setup] ends when the level holds no operator for the smoother, or
    one that is not block-partitioned. *)
Lemma Setup_not_blocked (currentLevel : Level SC)
    (s : BlockedGaussSeidelSmoother SC) :
  Level_Get_A currentLevel (param_A s) ≫= as_BlockedCrsMatrix = None ->
  Setup currentLevel s
  = {| result :=
         inl (match Level_Get_A currentLevel (param_A s) with
              | None => Level_data_not_available
              | Some _ => BadCast
              end);
       object :=
         match Level_Get_A currentLevel (param_A s) with
         | None => s
         | Some A => set_A_ (Some A) s
         end;
       warnings :=
         if IsSetup s then [Setup_has_already_been_called] else [] |}.
Proof.
  intros HA. unfold Setup, bind, this, Get, assign, ret, throw. cbn.
  destruct (Level_Get_A currentLevel (param_A s)) as [[f|bA]|]; cbn in *;
    try done; by destruct (IsSetup s).
Qed.

(** How [Setup] ends on a block-partitioned operator. *)
Lemma Setup_blocked (currentLevel : Level SC)
    (s : BlockedGaussSeidelSmoother SC) (bA : BlockedCrsMatrix SC) :
  Level_Get_A currentLevel (param_A s) = Some (BlockedCrs bA) ->
  let n := length (FactManager_ s) in
  exists smoos flags,
    Setup currentLevel s
    = {| result :=
           if negb (Rows bA =? n)
           then inl (RuntimeError (block_rows_do_not_match (Rows bA) n))
           else if negb (Cols bA =? n)
           then inl (RuntimeError (block_cols_do_not_match (Cols bA) n))
           else if dependencies_ready currentLevel (FactManager_ s)
           then inr tt
           else inl Level_data_not_available;
         object :=
           if negb (Rows bA =? n) || negb (Cols bA =? n)
           then set_A_ (Some (BlockedCrs bA)) s
           else
             (if dependencies_ready currentLevel (FactManager_ s)
              then set_IsSetup true else id)
               (with_block_rows smoos flags
                  (set_MapExtractors (Some (getRangeMapExtractor bA))
                     (Some (getDomainMapExtractor bA))
                     (set_A_ (Some (BlockedCrs bA)) s)));
         warnings :=
           if IsSetup s then [Setup_has_already_been_called] else [] |}
    /\ (forall i, i < length smoos ->
          smoos !! i
          = FactManager_ s !! i ≫= fun fm =>
              Level_Get_PreSmoother currentLevel (GetFactory_Smoother fm))
    /\ (forall i, i < length flags ->
          flags !! i
          = FactManager_ s !! i ≫= fun fm =>
              (fun Aii => bool_decide (is_Some (as_BlockedCrsMatrix Aii)))
              <$> Level_Get_A currentLevel (GetFactory_A fm))
    /\ (if dependencies_ready currentLevel (FactManager_ s)
        then length smoos = n /\ length flags = n
        else length flags < n
             /\ length flags <= length smoos <= S (length flags)).
Proof.
  intros HA n.
  destruct (Setup_block_rows_outcome currentLevel (FactManager_ s))
    as (smoos & flags & Hrun & Hsm & Hfl & Hlen).
  exists smoos, flags. split; [|done].
  unfold Setup, bind, this, Get, assign, ret, throw, TEST_FOR_EXCEPTION.
  cbn -[Nat.eqb]. rewrite HA. cbn -[Nat.eqb]. fold n.
  destruct (Rows bA =? n); cbn -[Nat.eqb];
    [|by destruct (IsSetup s)].
  destruct (Cols bA =? n); cbn -[Nat.eqb];
    [|by destruct (IsSetup s)].
  rewrite Hrun. cbn.
  destruct (dependencies_ready currentLevel (FactManager_ s)); cbn;
    by destruct (IsSetup s).
Qed.

Lemma length_DeclareInput_block_rows (fms : list FactoryManagerBase) :
  length (DeclareInput_block_rows fms) = 2 * length fms.
Proof. induction fms as [|fm fms IH]; cbn; [done|]. rewrite IH. lia. Qed.

(** [Setup] never writes the parameter list or the registry. *)
Lemma Setup_keeps_parameters (currentLevel : Level SC)
    (s : BlockedGaussSeidelSmoother SC) :
  param_Sweeps (object (Setup currentLevel s)) = param_Sweeps s
  /\ param_Damping_factor (object (Setup currentLevel s))
     = param_Damping_factor s
  /\ param_A (object (Setup currentLevel s)) = param_A s
  /\ FactManager_ (object (Setup currentLevel s)) = FactManager_ s.
Proof.
  destruct (Level_Get_A currentLevel (param_A s) ≫= as_BlockedCrsMatrix)
    as [bA|] eqn:HA.
  - destruct (Level_Get_A currentLevel (param_A s)) as [[f|bA']|] eqn:HA';
      cbn in HA; try done. injection HA as ->.
    destruct (Setup_blocked currentLevel s bA HA')
      as (smoos & flags & -> & _).
    cbn [object].
    destruct (negb (Rows bA =? length (FactManager_ s))
              || negb (Cols bA =? length (FactManager_ s))); [done|].
    by destruct (dependencies_ready currentLevel (FactManager_ s)).
  - rewrite Setup_not_blocked by done. cbn.
    by destruct (Level_Get_A currentLevel (param_A s)).
Qed.

(** X4.  [DeclareInput] files one request for the operator and two per
    registered manager, and they are all [Setup] reads from the level: on
    a level that holds every declared input, [Setup] never fails for
    missing data, and it succeeds exactly when the operator is
    block-partitioned with as many block rows and block columns as there
    are managers. *)
Theorem DeclareInput_covers_Setup (currentLevel : Level SC)
    (s : BlockedGaussSeidelSmoother SC) :
  forallb (Level_holds currentLevel) (DeclareInput s) = true ->
  let o := Setup currentLevel s in
  let n := length (FactManager_ s) in
  length (DeclareInput s) = 1 + 2 * n
  /\ result o <> inl Level_data_not_available
  /\ (result o = inr tt
      <-> exists bA,
            Level_Get_A currentLevel (param_A s) = Some (BlockedCrs bA)
            /\ Rows bA = n /\ Cols bA = n).
Proof.
  intros Hheld o n. subst o.
  split; [cbn; by rewrite length_DeclareInput_block_rows|].
  cbn in Hheld. apply andb_prop in Hheld as [HA Hrows].
  rewrite Level_holds_block_rows in Hrows.
  apply bool_decide_eq_true in HA as [A HA].
  destruct A as [f|bA].
  - rewrite Setup_not_blocked by (by rewrite HA). rewrite HA. cbn.
    split; [done|]. split; [done|]. by intros (bA & [=] & _).
  - destruct (Setup_blocked currentLevel s bA HA)
      as (smoos & flags & -> & _). fold n. rewrite Hrows.
    cbn [result].
    destruct (Nat.eqb_spec (Rows bA) n) as [HR|HR]; cbn [negb].
    2:{ split; [done|]. split; [done|]. intros (bA' & HA' & ? & ?).
        rewrite HA in HA'. injection HA' as <-. done. }
    destruct (Nat.eqb_spec (Cols bA) n) as [HC|HC]; cbn [negb].
    2:{ split; [done|]. split; [done|]. intros (bA' & HA' & ? & ?).
        rewrite HA in HA'. injection HA' as <-. done. }
    split; [done|]. split; [|done]. intros _. by exists bA.
Qed.

(** X5.  Without a block-partitioned operator on the level [Setup] fails
    before it looks at the registry: for missing data when the level holds
    no operator, and then the object is untouched; with [BadCast] when the
    operator is not block-partitioned, and then the object has that
    operator in [A_].  Either way the set-up flag, the bound sub-smoothers
    and the partition descriptors are as before. *)
Theorem Setup_without_blocked_operator (currentLevel : Level SC)
    (s : BlockedGaussSeidelSmoother SC) :
  Level_Get_A currentLevel (param_A s) ≫= as_BlockedCrsMatrix = None ->
  let o := Setup currentLevel s in
  result o
  = inl (match Level_Get_A currentLevel (param_A s) with
         | None => Level_data_not_available
         | Some _ => BadCast
         end)
  /\ object o
     = match Level_Get_A currentLevel (param_A s) with
       | None => s
       | Some A => set_A_ (Some A) s
       end
  /\ IsSetup (object o) = IsSetup s
  /\ Inverse_ (object o) = Inverse_ s
  /\ bIsBlockedOperator_ (object o) = bIsBlockedOperator_ s
  /\ rangeMapExtractor_ (object o) = rangeMapExtractor_ s
  /\ domainMapExtractor_ (object o) = domainMapExtractor_ s.
Proof.
  intros HA o. subst o. rewrite Setup_not_blocked by done. cbn.
  by destruct (Level_Get_A currentLevel (param_A s)).
Qed.

(** X6.  Whatever the level holds and however [Setup] ends, it leaves the
    configuration of the object alone (parameters and registry), it only
    ever appends to the bound sub-smoothers, and it never clears the
    set-up flag: the object is set up afterwards exactly when it was set
    up before or the call succeeded.  A warning is written exactly when
    the object was set up before. *)
Theorem Setup_keeps_configuration_and_flag (currentLevel : Level SC)
    (s : BlockedGaussSeidelSmoother SC) :
  let o := Setup currentLevel s in
  shares_configuration s (object o)
  /\ (exists smoos,
        Inverse_ (object o) = Inverse_ s ++ smoos
        /\ length smoos <= length (FactManager_ s))
  /\ (IsSetup (object o) = true
      <-> IsSetup s = true \/ result o = inr tt)
  /\ warnings o
     = (if IsSetup s then [Setup_has_already_been_called] else []).
Proof.
  intros o. subst o.
  destruct (Level_Get_A currentLevel (param_A s) ≫= as_BlockedCrsMatrix)
    as [bA|] eqn:HA.
  - destruct (Level_Get_A currentLevel (param_A s)) as [[f|bA']|] eqn:HA';
      cbn in HA; try done. injection HA as ->.
    destruct (Setup_blocked currentLevel s bA HA')
      as (smoos & flags & -> & _ & _ & Hlen).
    cbn [result object warnings].
    destruct (Rows bA =? length (FactManager_ s)); cbn [negb orb].
    2:{ cbn. split; [done|]. split; [|split; [|done]].
        - exists []. rewrite app_nil_r. split; [done|cbn; lia].
        - split; [auto|]. by intros [?|?]. }
    destruct (Cols bA =? length (FactManager_ s)); cbn [negb orb].
    2:{ cbn. split; [done|]. split; [|split; [|done]].
        - exists []. rewrite app_nil_r. split; [done|cbn; lia].
        - split; [auto|]. by intros [?|?]. }
    destruct (dependencies_ready currentLevel (FactManager_ s)); cbn.
    + split; [done|]. split; [|split; [|done]].
      * exists smoos. split; [done|]. lia.
      * split; auto.
    + split; [done|]. split; [|split; [|done]].
      * exists smoos. split; [done|]. lia.
      * split; [auto|]. by intros [?|?].
  - rewrite Setup_not_blocked by done. cbn.
    split; [by destruct (Level_Get_A currentLevel (param_A s))|].
    split; [|split; [|done]].
    + exists []. rewrite app_nil_r. split; [|cbn; lia].
      by destruct (Level_Get_A currentLevel (param_A s)).
    + split.
      * intros Hset. left.
        by destruct (Level_Get_A currentLevel (param_A s)).
      * intros [Hset|Hres]; [|done].
        by destruct (Level_Get_A currentLevel (param_A s)).
Qed.

(** X7.  When operator and counts are in order but some manager's
    sub-smoother or diagonal block is not on the level, [Setup] fails for
    missing data after it has rebound the operator and both partition
    descriptors and appended the rows before the missing one: the set-up
    flag is not raised, and fewer flags than block rows have been added. *)
Theorem Setup_missing_dependency (currentLevel : Level SC)
    (s : BlockedGaussSeidelSmoother SC) (bA : BlockedCrsMatrix SC) :
  Level_Get_A currentLevel (param_A s) = Some (BlockedCrs bA) ->
  Rows bA = length (FactManager_ s) ->
  Cols bA = length (FactManager_ s) ->
  dependencies_ready currentLevel (FactManager_ s) = false ->
  let o := Setup currentLevel s in
  let n := length (FactManager_ s) in
  result o = inl Level_data_not_available
  /\ IsSetup (object o) = IsSetup s
  /\ A_ (object o) = Some (BlockedCrs bA)
  /\ rangeMapExtractor_ (object o) = Some (getRangeMapExtractor bA)
  /\ domainMapExtractor_ (object o) = Some (getDomainMapExtractor bA)
  /\ length (Inverse_ (object o)) <= length (Inverse_ s) + n
  /\ length (bIsBlockedOperator_ (object o))
     < length (bIsBlockedOperator_ s) + n.
Proof.
  intros HA HR HC Hready o n. subst o n.
  destruct (Setup_blocked currentLevel s bA HA)
    as (smoos & flags & -> & _ & _ & Hlen).
  rewrite Hready in *. rewrite HR, HC, Nat.eqb_refl. cbn.
  rewrite !length_app. repeat split; try done; lia.
Qed.

(** X8.  A successful [Setup] binds the block rows in the order of the
    registry: the sub-smoother it appends for row [i] is the one the level
    holds for the Smoother factory of the [i]-th manager, and the flag it
    appends for row [i] tells whether the diagonal block the level holds
    for that manager is itself block-partitioned. *)
Theorem Setup_binds_rows_in_order (currentLevel : Level SC)
    (s : BlockedGaussSeidelSmoother SC) (bA : BlockedCrsMatrix SC) :
  Level_Get_A currentLevel (param_A s) = Some (BlockedCrs bA) ->
  dependencies_ready currentLevel (FactManager_ s) = true ->
  Rows bA = length (FactManager_ s) ->
  Cols bA = length (FactManager_ s) ->
  let o := Setup currentLevel s in
  result o = inr tt
  /\ length (Inverse_ (object o))
     = length (Inverse_ s) + length (FactManager_ s)
  /\ forall i, i < length (FactManager_ s) ->
       Inverse_ (object o) !! (length (Inverse_ s) + i)
       = FactManager_ s !! i ≫= (fun fm =>
           Level_Get_PreSmoother currentLevel (GetFactory_Smoother fm))
       /\ bIsBlockedOperator_ (object o)
            !! (length (bIsBlockedOperator_ s) + i)
          = FactManager_ s !! i ≫= (fun fm =>
              (fun Aii => bool_decide (is_Some (as_BlockedCrsMatrix Aii)))
              <$> Level_Get_A currentLevel (GetFactory_A fm)).
Proof.
  intros HA Hready HR HC o. subst o.
  destruct (Setup_blocked currentLevel s bA HA)
    as (smoos & flags & -> & Hsm & Hfl & Hlen).
  rewrite Hready in *. rewrite HR, HC, Nat.eqb_refl. cbn.
  destruct Hlen as [Hl1 Hl2].
  split; [done|]. split; [rewrite length_app; lia|].
  intros i Hi. split.
  - rewrite lookup_app_r by lia.
    replace (length (Inverse_ s) + i - length (Inverse_ s)) with i by lia.
    apply Hsm. lia.
  - rewrite lookup_app_r by lia.
    replace (length (bIsBlockedOperator_ s) + i
             - length (bIsBlockedOperator_ s)) with i by lia.
    apply Hfl. lia.
Qed.

End SetupMore.

(** ** Apply, continued: what it raises, how many passes, what layout *)

Section ApplyMore.
Context {SC : Type} `{ScalarTraits SC}.

(** X9.  On a set-up smoother [Apply] returns, after exactly
    [Sweeps * N] passes, [N] the number of bound sub-smoothers (none for a
    negative count): the passes come sweep by sweep and, within a sweep,
    row by row. *)
Theorem Apply_passes_in_order
    (s : BlockedGaussSeidelSmoother SC) (bA : BlockedCrsMatrix SC)
    (rme dme : MapExtractor) (X B : MultiVector SC)
    (InitialGuessIsZero : bool) :
  configured s = Some (bA, rme, dme) ->
  exists X' steps,
    Apply s X B InitialGuessIsZero = inr (X', steps)
    /\ map (fun e => (step_run e, step_row e)) steps
       = passes_in_order (Z.to_nat (param_Sweeps s)) (length (Inverse_ s))
    /\ length steps = Z.to_nat (param_Sweeps s) * length (Inverse_ s).
Proof.
  intros Hconf.
  apply configured_set_up in Hconf as (Hset & HA & Hrme & Hdme).
  rewrite (Apply_set_up _ _ _ _ _ Hset HA), Hrme, Hdme.
  destruct (bgs_sweeps_passes bA rme dme (Inverse_ s) (rhs_blocks bA B)
              (solution_groups bA X) (param_Damping_factor s)
              InitialGuessIsZero (Z.to_nat (param_Sweeps s))
              {| ws_X := initial_sub_vectors bA X InitialGuessIsZero;
                 ws_residual := putScalar_blocks zero (rhs_blocks bA B);
                 ws_steps := [] |}) as (w' & -> & Hkeys).
  cbn in Hkeys. eexists _, _. split; [done|]. split; [done|].
  by rewrite <- (length_map (fun e => (step_run e, step_row e))), Hkeys,
    length_passes_in_order.
Qed.

Lemma passes_in_order_rows (nSweeps N : nat) (run : Z) (i : nat) :
  (run, i) ∈ passes_in_order nSweeps N -> i < N.
Proof.
  unfold passes_in_order. rewrite list_elem_of_In, in_flat_map.
  intros (r & _ & Hin). apply in_map_iff in Hin as (k & [= _ <-] & Hk).
  apply in_seq in Hk. lia.
Qed.

(** X10.  [Setup] and [Apply] agree on the block rows.  Once [Setup] has
    succeeded on an object with no sub-smoother bound yet, [Apply] on an
    [X] that fits the domain map of the operator and a [B] that fits its
    range map makes, in every sweep, one pass for each block row of the
    operator and no other: [Sweeps] times [Rows] passes in all, sweep by
    sweep and row by row, each for a row the operator has. *)
Theorem Setup_then_Apply (currentLevel : Level SC)
    (s : BlockedGaussSeidelSmoother SC) (bA : BlockedCrsMatrix SC)
    (X B : MultiVector SC) (InitialGuessIsZero : bool) :
  Level_Get_A currentLevel (param_A s) = Some (BlockedCrs bA) ->
  dependencies_ready currentLevel (FactManager_ s) = true ->
  Rows bA = length (FactManager_ s) ->
  Cols bA = length (FactManager_ s) ->
  Inverse_ s = [] ->
  laid_out_by (default (getDomainMapExtractor bA)
                 (native_BlockedDomainMap <$> reordered bA)) X = true ->
  laid_out_by (default (getRangeMapExtractor bA)
                 (native_BlockedRangeMap <$> reordered bA)) B = true ->
  exists X' steps,
    Apply (object (Setup currentLevel s)) X B InitialGuessIsZero
    = inr (X', steps)
    /\ map (fun e => (step_run e, step_row e)) steps
       = passes_in_order (Z.to_nat (param_Sweeps s)) (Rows bA)
    /\ length steps = Z.to_nat (param_Sweeps s) * Rows bA
    /\ forall e, e ∈ steps -> step_row e < Rows bA.
Proof.
  intros HA Hready HR HC Hfresh _ _.
  destruct (Setup_configured _ _ _ HA Hready HR HC) as [Hconf Hrows].
  specialize (Hrows Hfresh).
  destruct (Setup_keeps_parameters currentLevel s) as [Hsweeps _].
  remember (object (Setup currentLevel s)) as s' eqn:Hs'. clear Hs'.
  apply configured_set_up in Hconf as (Hset & HA' & Hrme & Hdme).
  rewrite (Apply_set_up _ _ _ _ _ Hset HA'), Hrme, Hdme.
  destruct (bgs_sweeps_passes bA (getRangeMapExtractor bA)
              (getDomainMapExtractor bA) (Inverse_ s')
              (rhs_blocks bA B) (solution_groups bA X)
              (param_Damping_factor s') InitialGuessIsZero
              (Z.to_nat (param_Sweeps s'))
              {| ws_X := initial_sub_vectors bA X InitialGuessIsZero;
                 ws_residual := putScalar_blocks zero (rhs_blocks bA B);
                 ws_steps := [] |}) as (w' & -> & Hkeys).
  cbn in Hkeys. rewrite Hrows, Hsweeps in Hkeys.
  eexists _, _. split; [done|]. split; [done|]. split.
  - by rewrite <- (length_map (fun e => (step_run e, step_row e))), Hkeys,
      length_passes_in_order.
  - intros e He.
    apply (passes_in_order_rows (Z.to_nat (param_Sweeps s)) (Rows bA)
             (step_run e)).
    rewrite <- Hkeys.
    by apply (list_elem_of_fmap_2 (fun e => (step_run e, step_row e))).
Qed.

End ApplyMore.

Section ApplyEdges.
Context {SC : Type} `{ScalarTraits SC}.

Lemma same_shape_of_lengths (A B : list (Vec SC)) :
  map length A = map length B -> same_shape A B.
Proof.
  revert B. induction A as [|a A IH]; intros [|b B] Hlen; cbn in Hlen;
    try done; [constructor|].
  injection Hlen as Hab Hrest. constructor; [done|]. by apply IH.
Qed.

Lemma lengths_view_update (omega : SC) (A : Vec SC) (g : list nat)
    (st : list (Vec SC)) :
  map length (view_update omega A g st) = map length st.
Proof.
  revert A st. induction g as [|k g IH]; intros A st; cbn [view_update];
    [done|].
  rewrite IH. change (map length ?l) with (length <$> l).
  rewrite list_fmap_insert. apply list_insert_id'.
  rewrite length_fmap. intros Hk. rewrite list_lookup_fmap.
  destruct (lookup_lt_is_Some_2 st k Hk) as [x Hx]. rewrite Hx. cbn.
  by rewrite length_update.
Qed.

Lemma lengths_view_putScalar (c : SC) (ks : list nat)
    (st : list (Vec SC)) :
  map length (view_putScalar c ks st) = map length st.
Proof.
  change (map length ?l) with (length <$> l). apply list_eq. intros j.
  rewrite !list_lookup_fmap, view_putScalar_lookup.
  destruct (decide (j ∈ ks)); [|done].
  destruct (st !! j) as [x|]; cbn; [|done].
  by rewrite length_putScalar.
Qed.

Section AnyExtractors.
Variable bA : BlockedCrsMatrix SC.
Variables orme odme : option MapExtractor.
Variable Inverse : list (SmootherBase SC).
Variable rcpB : list (Vec SC).
Variable groups : list (list nat).
Variable omega : SC.
Variable InitialGuessIsZero : bool.

(** The inner loop, whatever the extractors: it keeps the sizes of the
    sub-vectors, and the only thing it can raise is the null reference,
    which takes a null extractor and a pass to make. *)
Lemma bgs_block_rows_general (run : Z) (rest : list (SmootherBase SC))
    (i : nat) (w : Workspace SC) :
  match bgs_block_rows bA orme odme rcpB groups omega InitialGuessIsZero
          run i rest w with
  | inr w' => map length (ws_X w') = map length (ws_X w)
  | inl e => e = NullReference /\ (orme = None \/ odme = None)
  end.
Proof.
  revert i w. induction rest as [|Smoo rest IH]; intros i w; cbn; [done|].
  destruct orme as [rme|]; [|auto]. destruct odme as [dme|]; [|auto].
  specialize (IH (S i) (bgs_block_row bA rcpB groups omega
                          InitialGuessIsZero dme run i Smoo w)).
  destruct (bgs_block_rows _ _ _ _ _ _ _ _ _ _ _); [done|].
  rewrite IH. unfold bgs_block_row. cbn [ws_X].
  apply lengths_view_update.
Qed.

Lemma bgs_sweeps_general (todo : nat) (run : Z) (w : Workspace SC) :
  match bgs_sweeps bA orme odme Inverse rcpB groups omega
          InitialGuessIsZero run todo w with
  | inr w' => map length (ws_X w') = map length (ws_X w)
  | inl e => e = NullReference /\ (orme = None \/ odme = None)
             /\ todo <> 0 /\ Inverse <> []
  end.
Proof.
  revert run w. induction todo as [|todo IH]; intros run w; cbn; [done|].
  pose proof (bgs_block_rows_general run Inverse 0 w) as Hrows.
  destruct (bgs_block_rows _ _ _ _ _ _ _ _ _ _ _) as [e|w1] eqn:Hw1.
  - destruct Hrows as (-> & Hnull). repeat split; try done.
    intros ->. cbn in Hw1. done.
  - specialize (IH (run + 1)%Z w1).
    destruct (bgs_sweeps _ _ _ _ _ _ _ _ _ _ _) as [e|w2].
    + destruct IH as (-> & Hnull & _ & Hne). repeat split; done.
    + by rewrite IH.
Qed.

End AnyExtractors.

(** X11.  Whenever [Apply] returns, the vector it hands back has the
    layout of the one it was given: a flat vector comes back flat with the
    same number of entries, a block-partitioned one comes back with the
    same number of sub-vectors of the same sizes, whatever the
    sub-smoothers returned. *)
Theorem Apply_keeps_layout (s : BlockedGaussSeidelSmoother SC)
    (X B : MultiVector SC) (InitialGuessIsZero : bool)
    (X' : MultiVector SC) (steps : list (SweepStep SC)) :
  Apply s X B InitialGuessIsZero = inr (X', steps) ->
  same_layout X X'.
Proof.
  unfold Apply. destruct (IsSetup s); cbn [negb]; [|done].
  destruct (A_ s ≫= as_BlockedCrsMatrix) as [bA|]; [|done].
  match goal with
  | |- context [bgs_sweeps ?a ?b ?c ?d ?e ?f ?g ?h ?r ?t ?w] =>
      pose proof (bgs_sweeps_general a b c d e f g h t r w) as Hgen;
      destruct (bgs_sweeps a b c d e f g h r t w) as [e'|w']
  end; [done|].
  intros [= <- _]. cbn [ws_X] in Hgen.
  destruct X as [v|vv]; cbn [same_layout].
  - assert (Hcopy : bCopyResult
              (reconcile (getDomainMapExtractor bA)
                 (native_BlockedDomainMap <$> reordered bA) (FlatMV v))
            = true) by (by destruct (reordered bA)).
    rewrite Hcopy. apply length_update.
  - apply same_shape_of_lengths. rewrite Hgen.
    assert (Hsub : sub_vectors
              (reconcile (getDomainMapExtractor bA)
                 (native_BlockedDomainMap <$> reordered bA) (BlockedMV vv))
            = vv) by (by destruct (reordered bA)).
    rewrite Hsub.
    destruct InitialGuessIsZero; [|done]. apply lengths_view_putScalar.
Qed.

End ApplyEdges.

(** ** Apply computes the damped block Gauss-Seidel relaxation *)

Section Refinement.
Context {SC : Type} `{ScalarTraits SC} `{!ScalarLaws SC}.

Lemma product_flag (InitialGuessIsZero : bool) (i : nat) (run : Z) :
  (0 <= run)%Z ->
  negb InitialGuessIsZero || (0 <? i) || (0 <? run)%Z
  = negb (InitialGuessIsZero && (run =? 0)%Z) || (0 <? i).
Proof.
  intros Hrun.
  destruct InitialGuessIsZero, (0 <? i), (Z.ltb_spec 0 run),
    (Z.eqb_spec run 0); cbn; try done; lia.
Qed.

Section Loops.
Variable bA : BlockedCrsMatrix SC.
Variables rme dme : MapExtractor.
Variable Inverse : list (SmootherBase SC).
Variable rcpB : list (Vec SC).
Variable groups : list (list nat).
Variable omega : SC.
Variable InitialGuessIsZero : bool.

(** One pass of the loop does to the sub-vectors what one row of the
    relaxation does. *)
Lemma bgs_block_row_relax (run : Z) (i : nat) (Smoo : SmootherBase SC)
    (w : Workspace SC) :
  (0 <= run)%Z ->
  same_shape (ws_residual w) rcpB ->
  ws_X (bgs_block_row bA rcpB groups omega InitialGuessIsZero dme
          run i Smoo w)
  = relax_row bA dme rcpB groups omega
      (InitialGuessIsZero && (run =? 0)%Z) i Smoo (ws_X w)
  /\ same_shape
       (ws_residual (bgs_block_row bA rcpB groups omega InitialGuessIsZero
                       dme run i Smoo w)) rcpB.
Proof.
  intros Hrun Hshape. unfold bgs_block_row, relax_row, block_residual.
  cbn [ws_X ws_residual]. rewrite update_blocks_copy by done.
  rewrite product_flag by done.
  destruct (negb (InitialGuessIsZero && (run =? 0)%Z) || (0 <? i)).
  - split; [|apply same_shape_update_blocks].
    rewrite bgs_apply_row. by destruct (rcpB !! i).
  - split; [|apply same_shape_refl]. by destruct (rcpB !! i).
Qed.

Lemma bgs_block_rows_relax (run : Z) (rest : list (SmootherBase SC))
    (i : nat) (w : Workspace SC) :
  (0 <= run)%Z ->
  same_shape (ws_residual w) rcpB ->
  exists w',
    bgs_block_rows bA (Some rme) (Some dme) rcpB groups omega
      InitialGuessIsZero run i rest w = inr w'
    /\ ws_X w'
       = relax_rows bA dme rcpB groups omega
           (InitialGuessIsZero && (run =? 0)%Z) i rest (ws_X w)
    /\ same_shape (ws_residual w') rcpB.
Proof.
  intros Hrun. revert i w.
  induction rest as [|Smoo rest IH]; intros i w Hshape; cbn.
  - by exists w.
  - destruct (bgs_block_row_relax run i Smoo w Hrun Hshape) as [HX Hres].
    destruct (IH (S i) _ Hres) as (w' & Hw' & HX' & Hres').
    exists w'. split; [done|]. split; [|done]. by rewrite HX', HX.
Qed.

Lemma bgs_sweeps_relax (todo : nat) (run : Z) (w : Workspace SC) :
  (0 <= run)%Z ->
  same_shape (ws_residual w) rcpB ->
  exists w',
    bgs_sweeps bA (Some rme) (Some dme) Inverse rcpB groups omega
      InitialGuessIsZero run todo w = inr w'
    /\ ws_X w'
       = relax_sweeps bA dme Inverse rcpB groups omega
           (InitialGuessIsZero && (run =? 0)%Z) todo (ws_X w).
Proof.
  revert run w. induction todo as [|todo IH]; intros run w Hrun Hshape; cbn.
  - by exists w.
  - destruct (bgs_block_rows_relax run Inverse 0 w Hrun Hshape)
      as (w1 & -> & HX1 & Hres1).
    destruct (IH (run + 1)%Z w1 ltac:(lia) Hres1) as (w' & Hw' & HX').
    exists w'. split; [done|]. rewrite HX', HX1.
    replace (run + 1 =? 0)%Z with false by lia.
    by rewrite andb_false_r.
Qed.

End Loops.

(** [Apply] on a set-up smoother hands back the relaxed sub-vectors. *)
Lemma Apply_relaxed (s : BlockedGaussSeidelSmoother SC)
    (bA : BlockedCrsMatrix SC) (rme dme : MapExtractor)
    (X B : MultiVector SC) (InitialGuessIsZero : bool) :
  configured s = Some (bA, rme, dme) ->
  exists steps,
    Apply s X B InitialGuessIsZero
    = inr (handed_back bA X (relaxed s bA dme X B InitialGuessIsZero),
           steps).
Proof.
  intros Hconf.
  apply configured_set_up in Hconf as (Hset & HA & Hrme & Hdme).
  rewrite (Apply_set_up _ _ _ _ _ Hset HA), Hrme, Hdme.
  destruct (bgs_sweeps_relax bA rme dme (Inverse_ s) (rhs_blocks bA B)
              (solution_groups bA X) (param_Damping_factor s)
              InitialGuessIsZero (Z.to_nat (param_Sweeps s)) 0%Z
              {| ws_X := initial_sub_vectors bA X InitialGuessIsZero;
                 ws_residual := putScalar_blocks zero (rhs_blocks bA B);
                 ws_steps := [] |}) as (w' & -> & HX); [lia| |].
  - apply same_shape_putScalar_blocks.
  - exists (ws_steps w'). rewrite HX. cbn [ws_X].
    by rewrite andb_true_r.
Qed.

Lemma length_Merge (me : MapExtractor) (vv : list (Vec SC)) :
  length (Merge me vv) = fullSize me.
Proof. unfold Merge. by rewrite length_Merge_from, length_replicate. Qed.

(** X14.  On a set-up smoother, in exact arithmetic, [Apply] computes the
    damped block Gauss-Seidel relaxation: a block-partitioned [X] comes
    back as the sub-vectors [relaxed] produces from it, sweep by sweep and
    row by row as [x_i + omega * S_i(b_i - A_i x)]; a flat [X] comes back
    as their merge over the blocked map it was cut with. *)
Theorem Apply_computes_relaxation (s : BlockedGaussSeidelSmoother SC)
    (bA : BlockedCrsMatrix SC) (rme dme : MapExtractor)
    (X B : MultiVector SC) (InitialGuessIsZero : bool) :
  configured s = Some (bA, rme, dme) ->
  exists X' steps,
    Apply s X B InitialGuessIsZero = inr (X', steps)
    /\ match X with
       | BlockedMV _ =>
           X' = BlockedMV (relaxed s bA dme X B InitialGuessIsZero)
       | FlatMV v =>
           let me := default (getDomainMapExtractor bA)
                       (native_BlockedDomainMap <$> reordered bA) in
           fullSize me = length v ->
           X' = FlatMV (Merge me (relaxed s bA dme X B InitialGuessIsZero))
       end.
Proof.
  intros Hconf.
  destruct (Apply_relaxed s bA rme dme X B InitialGuessIsZero Hconf)
    as (steps & ->).
  eexists _, _. split; [done|]. unfold handed_back.
  destruct X as [v|vv]; [|done].
  destruct (reordered bA) as [rb|]; cbn; intros Hsize;
    by rewrite update_copy by (by rewrite length_Merge).
Qed.

End Refinement.

(** ** What follows for the caller *)

Section Consequences.
Context {SC : Type} `{ScalarTraits SC} `{!ScalarLaws SC}.

Lemma update_onto_zeros (omega : SC) (A this : Vec SC) :
  length A = length this ->
  update omega A one (putScalar zero this) = map (times omega) A.
Proof.
  revert A. induction this as [|t this IH]; intros [|a A]; cbn; try done.
  intros [= Hlen]. by rewrite times_one_l, plus_zero_r, IH.
Qed.

(** X15.  One block row, one sweep, zero initial guess: the operator is
    never consulted, and [X] comes back as the damped correction the
    sub-smoother returns for the right-hand side, [omega * S(b)]: with a
    damping factor of one, the sub-smoother's own answer. *)
Theorem Apply_one_block_row (s : BlockedGaussSeidelSmoother SC)
    (bA : BlockedCrsMatrix SC) (rme dme : MapExtractor)
    (Smoo : SmootherBase SC) (x b : Vec SC) :
  configured s = Some (bA, rme, dme) ->
  reordered bA = None ->
  Inverse_ s = [Smoo] ->
  param_Sweeps s = 1%Z ->
  length (smoother_Apply Smoo (getVector dme 0) b false) = length x ->
  exists steps,
    Apply s (BlockedMV [x]) (BlockedMV [b]) true
    = inr (BlockedMV
             [map (times (param_Damping_factor s))
                (smoother_Apply Smoo (getVector dme 0) b false)],
           steps).
Proof.
  intros Hconf Hplain Hinv Hsweeps Hlen.
  destruct (Apply_relaxed s bA rme dme (BlockedMV [x]) (BlockedMV [b]) true
              Hconf) as (steps & ->).
  exists steps. unfold handed_back, relaxed, rhs_blocks,
    initial_sub_vectors, solution_groups, top_level_blocks.
  rewrite Hplain, Hinv, Hsweeps. change (Z.to_nat 1) with 1.
  cbn. rewrite app_nil_r.
  by rewrite update_onto_zeros.
Qed.

(** X16.  Flat vectors are a convenience and nothing more: on an operator
    without reordering plan, when [Apply] on the block-partitioned forms
    of [x] and [b] hands back the sub-vectors [vv], [Apply] on the flat
    [x] and [b] makes the same passes and hands back the merge of
    [vv]. *)
Theorem Apply_flat_is_blocked_merged (s : BlockedGaussSeidelSmoother SC)
    (bA : BlockedCrsMatrix SC) (v b : Vec SC) (InitialGuessIsZero : bool)
    (vv : list (Vec SC)) (steps : list (SweepStep SC)) :
  reordered bA = None ->
  A_ s = Some (BlockedCrs bA) ->
  fullSize (getDomainMapExtractor bA) = length v ->
  Apply s
    (BlockedMV (BlockedMultiVector_ctor (getDomainMapExtractor bA) v))
    (BlockedMV (BlockedMultiVector_ctor (getRangeMapExtractor bA) b))
    InitialGuessIsZero = inr (BlockedMV vv, steps) ->
  Apply s (FlatMV v) (FlatMV b) InitialGuessIsZero
  = inr (FlatMV (Merge (getDomainMapExtractor bA) vv), steps).
Proof.
  intros Hplain HA Hsize. unfold Apply. rewrite HA. cbn [mbind option_bind
    as_BlockedCrsMatrix].
  destruct (IsSetup s); cbn [negb]; [|done].
  rewrite Hplain. cbn [fmap option_fmap option_map reconcile sub_vectors
    blocked_map bCopyResult bReorder top_level_blocks].
  match goal with
  | |- context [bgs_sweeps ?a ?b ?c ?d ?e ?f ?g ?h ?r ?t ?w] =>
      destruct (bgs_sweeps a b c d e f g h r t w) as [e'|w']
  end; [done|].
  intros [= <- <-].
  by rewrite update_copy by (by rewrite length_Merge).
Qed.

Section Relaxing.
Variable bA : BlockedCrsMatrix SC.
Variable dme : MapExtractor.
Variable Inverse : list (SmootherBase SC).
Variable rcpB : list (Vec SC).
Variable groups : list (list nat).
Variable omega : SC.

Local Abbreviation relax_rows' :=
  (relax_rows bA dme rcpB groups omega).
Local Abbreviation relax_sweeps' :=
  (relax_sweeps bA dme Inverse rcpB groups omega).

Lemma relax_sweeps_add (m n : nat) (st : list (Vec SC)) :
  relax_sweeps' false (m + n) st
  = relax_sweeps' false n (relax_sweeps' false m st).
Proof. revert st. induction m as [|m IH]; intros st; cbn; [done|apply IH]. Qed.

Lemma lengths_relax_rows (skip_first : bool) (rest : list (SmootherBase SC))
    (i : nat) (st : list (Vec SC)) :
  map length (relax_rows' skip_first i rest st) = map length st.
Proof.
  revert i st. induction rest as [|Smoo rest IH]; intros i st; cbn; [done|].
  rewrite IH. apply lengths_view_update.
Qed.

Lemma lengths_relax_sweeps (skip_first : bool) (todo : nat)
    (st : list (Vec SC)) :
  map length (relax_sweeps' skip_first todo st) = map length st.
Proof.
  revert skip_first st.
  induction todo as [|todo IH]; intros skip_first st; cbn; [done|].
  rewrite IH. apply lengths_relax_rows.
Qed.

(** From the second row on the flag of the first row plays no part. *)
Lemma relax_rows_later (skip_first : bool) (rest : list (SmootherBase SC))
    (i : nat) (st : list (Vec SC)) :
  0 < i ->
  relax_rows' skip_first i rest st = relax_rows' false i rest st.
Proof.
  revert i st. induction rest as [|Smoo rest IH]; intros i st Hi; cbn;
    [done|].
  unfold relax_row. rewrite (proj2 (Nat.ltb_lt 0 i) Hi), !orb_true_r.
  apply IH. lia.
Qed.

Lemma relax_sweeps_shortcut (todo : nat) (st : list (Vec SC)) :
  block_residual bA rcpB (view_blocks groups st) 0 true
  = block_residual bA rcpB (view_blocks groups st) 0 false ->
  relax_sweeps' true todo st = relax_sweeps' false todo st.
Proof.
  intros Hres. destruct todo as [|todo]; cbn; [done|]. f_equal.
  destruct Inverse as [|Smoo rest]; cbn; [done|].
  rewrite relax_rows_later by lia. f_equal.
  unfold relax_row. cbn [negb orb Nat.ltb Nat.leb]. by rewrite Hres.
Qed.

End Relaxing.

Lemma solution_groups_blocked (bA : BlockedCrsMatrix SC)
    (vv vv' : list (Vec SC)) :
  length vv' = length vv ->
  solution_groups bA (BlockedMV vv') = solution_groups bA (BlockedMV vv).
Proof.
  intros Hlen. unfold solution_groups, top_level_blocks.
  destruct (reordered bA); cbn; by rewrite Hlen.
Qed.

Lemma initial_sub_vectors_blocked (bA : BlockedCrsMatrix SC)
    (vv : list (Vec SC)) :
  initial_sub_vectors bA (BlockedMV vv) false = vv.
Proof. unfold initial_sub_vectors. by destruct (reordered bA). Qed.

(** X17.  Sweeps add up across calls: on a block-partitioned [X], without
    the zero-initial-guess flag, [m] sweeps in one call followed by [n]
    sweeps in a second call on what the first handed back leave in [X]
    what [m + n] sweeps in a single call leave. *)
Theorem Apply_sweeps_add (s : BlockedGaussSeidelSmoother SC)
    (bA : BlockedCrsMatrix SC) (rme dme : MapExtractor)
    (vv : list (Vec SC)) (B : MultiVector SC) (m n : nat) :
  configured s = Some (bA, rme, dme) ->
  exists vv1 vv2 steps1 steps2 steps,
    Apply (SetParameters (param_Damping_factor s) (Z.of_nat m) s)
      (BlockedMV vv) B false = inr (BlockedMV vv1, steps1)
    /\ Apply (SetParameters (param_Damping_factor s) (Z.of_nat n) s)
         (BlockedMV vv1) B false = inr (BlockedMV vv2, steps2)
    /\ Apply (SetParameters (param_Damping_factor s) (Z.of_nat (m + n)) s)
         (BlockedMV vv) B false = inr (BlockedMV vv2, steps).
Proof.
  intros Hconf.
  set (again := fun k => SetParameters (param_Damping_factor s)
                           (Z.of_nat k) s).
  assert (Hagain : forall k, configured (again k) = Some (bA, rme, dme))
    by (intros k; exact Hconf).
  set (vv1 := relaxed (again m) bA dme (BlockedMV vv) B false).
  destruct (Apply_relaxed (again m) bA rme dme (BlockedMV vv) B false
              (Hagain m)) as (steps1 & H1).
  destruct (Apply_relaxed (again n) bA rme dme (BlockedMV vv1) B false
              (Hagain n)) as (steps2 & H2).
  destruct (Apply_relaxed (again (m + n)) bA rme dme (BlockedMV vv) B false
              (Hagain (m + n))) as (steps & H12).
  exists vv1, (relaxed (again n) bA dme (BlockedMV vv1) B false),
    steps1, steps2, steps.
  split; [exact H1|]. split; [exact H2|].
  fold (again (m + n)). rewrite H12. unfold handed_back. do 2 f_equal.
  assert (Hlen : length vv1 = length vv).
  { subst vv1. unfold relaxed.
    rewrite <- (length_map length), lengths_relax_sweeps, length_map.
    by rewrite initial_sub_vectors_blocked. }
  unfold relaxed at 2. rewrite (solution_groups_blocked bA vv vv1 Hlen).
  rewrite initial_sub_vectors_blocked. subst vv1. unfold relaxed.
  rewrite initial_sub_vectors_blocked.
  cbn [again SetParameters param_Sweeps param_Damping_factor Inverse_].
  rewrite !Nat2Z.id. f_equal. apply relax_sweeps_add.
Qed.

Lemma BlockedMultiVector_ctor_zeros (me : MapExtractor) (v : Vec SC) :
  BlockedMultiVector_ctor me (putScalar zero v)
  = putScalar_blocks zero (BlockedMultiVector_ctor me v).
Proof.
  rewrite !BlockedMultiVector_ctor_maps. unfold putScalar_blocks, putScalar.
  rewrite map_map. apply map_ext. intros m. rewrite map_map.
  apply map_ext. intros g.
  change (map ?f v !! g) with ((f <$> v) !! g). rewrite list_lookup_fmap.
  by destruct (v !! g).
Qed.

(** X18.  The zero-initial-guess flag is a shortcut and changes nothing
    else: when the residual of the very first pass is the same with and
    without the product (the operator maps a zero block row to zero),
    [Apply] with the flag hands back what [Apply] without the flag hands
    back for an [X] that is zero to begin with. *)
Theorem Apply_zero_guess_is_a_shortcut (s : BlockedGaussSeidelSmoother SC)
    (bA : BlockedCrsMatrix SC) (rme dme : MapExtractor)
    (X B : MultiVector SC) :
  configured s = Some (bA, rme, dme) ->
  reconcilable bA X = true ->
  first_residual bA X B true = first_residual bA X B false ->
  exists X' steps steps',
    Apply s X B true = inr (X', steps)
    /\ Apply s (zero_reset X) B false = inr (X', steps').
Proof.
  intros Hconf Hrec Hfirst.
  destruct (Apply_relaxed s bA rme dme X B true Hconf) as (steps & H1).
  destruct (Apply_relaxed s bA rme dme (zero_reset X) B false Hconf)
    as (steps' & H2).
  eexists _, steps, steps'. split; [exact H1|]. rewrite H2. do 2 f_equal.
  unfold reconcilable in Hrec. apply andb_prop in Hrec as [Hcov Hpart].
  assert (Hgroups : solution_groups bA (zero_reset X)
                    = solution_groups bA X).
  { unfold solution_groups, top_level_blocks.
    destruct X as [v|vv], (reordered bA); cbn;
      unfold BlockedMultiVector_ctor, putScalar_blocks;
      by rewrite ?length_map. }
  assert (Hstart : initial_sub_vectors bA (zero_reset X) false
                   = initial_sub_vectors bA X true).
  { unfold initial_sub_vectors. fold (solution_groups bA X).
    rewrite view_putScalar_covering by done.
    destruct X as [v|vv], (reordered bA); cbn;
      by rewrite ?BlockedMultiVector_ctor_zeros. }
  unfold relaxed. rewrite Hgroups, Hstart.
  rewrite <- (relax_sweeps_shortcut _ _ _ _ _ _ _ _ Hfirst).
  destruct X as [v|vv]; [|done].
  unfold handed_back. cbn [zero_reset].
  unfold partitions in Hpart. apply andb_prop in Hpart as [Hsize _].
  apply Nat.eqb_eq in Hsize.
  destruct (reordered bA); cbn in *;
    by rewrite !update_copy
      by (by rewrite length_Merge, ?length_putScalar).
Qed.

End Consequences.

(** ** The further properties on the small systems *)

Section FurtherRuns.
Import Example.
Local Open Scope Z_scope.

Lemma AddFactoryManager_replaces_witness :
  0 <= 0 < Z.of_nat (length (FactManager_ prototype))
  /\ let o := AddFactoryManager manager2 0 prototype in
     result o = inr tt
     /\ warnings o = []
     /\ length (FactManager_ (object o)) = length (FactManager_ prototype)
     /\ FactManager_ (object o) !! Z.to_nat 0 = Some manager2
     /\ (forall j, j <> Z.to_nat 0 ->
           FactManager_ (object o) !! j = FactManager_ prototype !! j)
     /\ object o = set_FactManager_ (FactManager_ (object o)) prototype.
Proof.
  assert (Hpos : 0 <= 0 < Z.of_nat (length (FactManager_ prototype)))
    by (change (0 <= 0 < 2); lia).
  split; [exact Hpos|].
  exact (AddFactoryManager_replaces manager2 0 prototype Hpos).
Defined.

Lemma AddFactoryManager_appends_witness :
  Z.of_nat (length (FactManager_ short_prototype)) <= 5
  /\ let o := AddFactoryManager manager1 5 short_prototype in
     let n := length (FactManager_ short_prototype) in
     result o = inr tt
     /\ FactManager_ (object o) = FactManager_ short_prototype ++ [manager1]
     /\ FactManager_ (object o) !! n = Some manager1
     /\ (Z.of_nat n < 5 -> FactManager_ (object o) !! Z.to_nat 5 = None)
     /\ warnings o
        = (if Z.of_nat n <? 5
           then [cannot_add_at_proper_position 5] else [])
     /\ object o
        = set_FactManager_ (FactManager_ (object o)) short_prototype.
Proof.
  assert (Hpos : Z.of_nat (length (FactManager_ short_prototype)) <= 5)
    by (change (1 <= 5); lia).
  split; [exact Hpos|].
  exact (AddFactoryManager_appends manager1 5 short_prototype Hpos).
Defined.

Lemma DeclareInput_covers_Setup_witness :
  forallb (Level_holds level) (DeclareInput prototype) = true
  /\ let o := Setup level prototype in
     let n := length (FactManager_ prototype) in
     length (DeclareInput prototype) = (1 + 2 * n)%nat
     /\ result o <> inl Level_data_not_available
     /\ (result o = inr tt
         <-> exists bA,
               Level_Get_A level (param_A prototype) = Some (BlockedCrs bA)
               /\ Rows bA = n /\ Cols bA = n).
Proof.
  split; [reflexivity|].
  apply (DeclareInput_covers_Setup level prototype). reflexivity.
Defined.

Lemma Setup_without_blocked_operator_witness :
  Level_Get_A flat_level (param_A prototype) ≫= as_BlockedCrsMatrix = None
  /\ let o := Setup flat_level prototype in
     result o
     = inl (match Level_Get_A flat_level (param_A prototype) with
            | None => Level_data_not_available
            | Some _ => BadCast
            end)
     /\ object o
        = match Level_Get_A flat_level (param_A prototype) with
          | None => prototype
          | Some A => set_A_ (Some A) prototype
          end
     /\ IsSetup (object o) = IsSetup prototype
     /\ Inverse_ (object o) = Inverse_ prototype
     /\ bIsBlockedOperator_ (object o) = bIsBlockedOperator_ prototype
     /\ rangeMapExtractor_ (object o) = rangeMapExtractor_ prototype
     /\ domainMapExtractor_ (object o) = domainMapExtractor_ prototype.
Proof.
  split; [reflexivity|].
  apply (Setup_without_blocked_operator flat_level prototype). reflexivity.
Defined.

Lemma Setup_missing_dependency_witness :
  Level_Get_A level (param_A incomplete_prototype)
  = Some (BlockedCrs operator)
  /\ Rows operator = length (FactManager_ incomplete_prototype)
  /\ Cols operator = length (FactManager_ incomplete_prototype)
  /\ dependencies_ready level (FactManager_ incomplete_prototype) = false
  /\ let o := Setup level incomplete_prototype in
     let n := length (FactManager_ incomplete_prototype) in
     result o = inl Level_data_not_available
     /\ IsSetup (object o) = IsSetup incomplete_prototype
     /\ A_ (object o) = Some (BlockedCrs operator)
     /\ rangeMapExtractor_ (object o)
        = Some (getRangeMapExtractor operator)
     /\ domainMapExtractor_ (object o)
        = Some (getDomainMapExtractor operator)
     /\ (length (Inverse_ (object o))
         <= length (Inverse_ incomplete_prototype) + n)%nat
     /\ (length (bIsBlockedOperator_ (object o))
         < length (bIsBlockedOperator_ incomplete_prototype) + n)%nat.
Proof.
  do 4 (split; [reflexivity|]).
  apply (Setup_missing_dependency level incomplete_prototype operator);
    reflexivity.
Defined.

Lemma Setup_binds_rows_in_order_witness :
  Level_Get_A level (param_A prototype) = Some (BlockedCrs operator)
  /\ dependencies_ready level (FactManager_ prototype) = true
  /\ Rows operator = length (FactManager_ prototype)
  /\ Cols operator = length (FactManager_ prototype)
  /\ let o := Setup level prototype in
     result o = inr tt
     /\ length (Inverse_ (object o))
        = (length (Inverse_ prototype)
           + length (FactManager_ prototype))%nat
     /\ forall i, (i < length (FactManager_ prototype))%nat ->
          Inverse_ (object o) !! (length (Inverse_ prototype) + i)%nat
          = FactManager_ prototype !! i ≫= (fun fm =>
              Level_Get_PreSmoother level (GetFactory_Smoother fm))
          /\ bIsBlockedOperator_ (object o)
               !! (length (bIsBlockedOperator_ prototype) + i)%nat
             = FactManager_ prototype !! i ≫= (fun fm =>
                 (fun Aii =>
                    bool_decide (is_Some (as_BlockedCrsMatrix Aii)))
                 <$> Level_Get_A level (GetFactory_A fm)).
Proof.
  do 4 (split; [reflexivity|]).
  apply (Setup_binds_rows_in_order level prototype operator); reflexivity.
Defined.

Lemma Apply_passes_in_order_witness :
  configured (SetParameters 1 3 smoother)
  = Some (operator, extractor, extractor)
  /\ exists X' steps,
       Apply (SetParameters 1 3 smoother) (FlatMV [7; 8; 9])
         (FlatMV [1; 2; 3]) true = inr (X', steps)
       /\ map (fun e => (step_run e, step_row e)) steps
          = passes_in_order
              (Z.to_nat (param_Sweeps (SetParameters 1 3 smoother)))
              (length (Inverse_ (SetParameters 1 3 smoother)))
       /\ length steps
          = Nat.mul (Z.to_nat (param_Sweeps (SetParameters 1 3 smoother)))
              (length (Inverse_ (SetParameters 1 3 smoother))).
Proof.
  split; [reflexivity|].
  apply (Apply_passes_in_order (SetParameters 1 3 smoother) operator
           extractor extractor (FlatMV [7; 8; 9]) (FlatMV [1; 2; 3]) true).
  reflexivity.
Defined.

Lemma Setup_then_Apply_witness :
  Level_Get_A level (param_A prototype) = Some (BlockedCrs operator)
  /\ dependencies_ready level (FactManager_ prototype) = true
  /\ Rows operator = length (FactManager_ prototype)
  /\ Cols operator = length (FactManager_ prototype)
  /\ Inverse_ prototype = []
  /\ laid_out_by
       (default (getDomainMapExtractor operator)
          (native_BlockedDomainMap <$> reordered operator))
       (FlatMV [7; 8; 9]) = true
  /\ laid_out_by
       (default (getRangeMapExtractor operator)
          (native_BlockedRangeMap <$> reordered operator))
       (BlockedMV [[1; 2]; [3]]) = true
  /\ exists X' steps,
       Apply (object (Setup level prototype)) (FlatMV [7; 8; 9])
         (BlockedMV [[1; 2]; [3]]) true = inr (X', steps)
       /\ map (fun e => (step_run e, step_row e)) steps
          = passes_in_order (Z.to_nat (param_Sweeps prototype))
              (Rows operator)
       /\ length steps
          = Nat.mul (Z.to_nat (param_Sweeps prototype)) (Rows operator)
       /\ forall e, e ∈ steps -> (step_row e < Rows operator)%nat.
Proof.
  do 7 (split; [reflexivity|]).
  apply (Setup_then_Apply level prototype operator (FlatMV [7; 8; 9])
           (BlockedMV [[1; 2]; [3]]) true); reflexivity.
Defined.

Lemma Apply_keeps_layout_witness :
  exists X' steps,
    Apply smoother (BlockedMV [[7; 8]; [9]]) (FlatMV [1; 2; 3]) false
    = inr (X', steps)
    /\ same_layout (BlockedMV [[7; 8]; [9]]) X'.
Proof.
  eexists _, _. split; [vm_compute; reflexivity|].
  eapply (Apply_keeps_layout smoother (BlockedMV [[7; 8]; [9]])
            (FlatMV [1; 2; 3]) false).
  vm_compute. reflexivity.
Defined.

Lemma Apply_computes_relaxation_witness :
  configured (SetParameters 2 2 smoother)
  = Some (operator, extractor, extractor)
  /\ exists X' steps,
       Apply (SetParameters 2 2 smoother) (FlatMV [7; 8; 9])
         (FlatMV [1; 2; 3]) false = inr (X', steps)
       /\ (fullSize extractor = length [7; 8; 9] ->
           X' = FlatMV
                  (Merge extractor
                     (relaxed (SetParameters 2 2 smoother) operator
                        extractor (FlatMV [7; 8; 9]) (FlatMV [1; 2; 3])
                        false))).
Proof.
  split; [reflexivity|].
  apply (Apply_computes_relaxation (SetParameters 2 2 smoother) operator
           extractor extractor (FlatMV [7; 8; 9]) (FlatMV [1; 2; 3]) false).
  reflexivity.
Defined.

Lemma Apply_one_block_row_witness :
  configured (SetParameters 2 1 set_up_once)
  = Some (operator1, extractor1, extractor1)
  /\ reordered operator1 = None
  /\ Inverse_ (SetParameters 2 1 set_up_once) = [smoother0]
  /\ param_Sweeps (SetParameters 2 1 set_up_once) = 1
  /\ length (smoother_Apply smoother0 (getVector extractor1 0) [5] false)
     = length [7]
  /\ exists steps,
       Apply (SetParameters 2 1 set_up_once) (BlockedMV [[7]])
         (BlockedMV [[5]]) true
       = inr (BlockedMV
                [map (times
                        (param_Damping_factor
                           (SetParameters 2 1 set_up_once)))
                   (smoother_Apply smoother0 (getVector extractor1 0) [5]
                      false)],
              steps).
Proof.
  do 5 (split; [reflexivity|]).
  apply (Apply_one_block_row (SetParameters 2 1 set_up_once) operator1
           extractor1 extractor1 smoother0 [7] [5]); reflexivity.
Defined.

Lemma Apply_flat_is_blocked_merged_witness :
  reordered operator = None
  /\ A_ smoother = Some (BlockedCrs operator)
  /\ fullSize (getDomainMapExtractor operator) = length [7; 8; 9]
  /\ exists vv steps,
       Apply smoother
         (BlockedMV
            (BlockedMultiVector_ctor (getDomainMapExtractor operator)
               [7; 8; 9]))
         (BlockedMV
            (BlockedMultiVector_ctor (getRangeMapExtractor operator)
               [1; 2; 3]))
         false = inr (BlockedMV vv, steps)
       /\ Apply smoother (FlatMV [7; 8; 9]) (FlatMV [1; 2; 3]) false
          = inr (FlatMV (Merge (getDomainMapExtractor operator) vv), steps).
Proof.
  do 3 (split; [reflexivity|]).
  eexists _, _. split; [vm_compute; reflexivity|].
  eapply (Apply_flat_is_blocked_merged smoother operator [7; 8; 9]
            [1; 2; 3] false); vm_compute; reflexivity.
Defined.

Lemma Apply_sweeps_add_witness :
  configured smoother = Some (operator, extractor, extractor)
  /\ exists vv1 vv2 steps1 steps2 steps,
       Apply (SetParameters (param_Damping_factor smoother)
                (Z.of_nat 1) smoother)
         (BlockedMV [[7; 8]; [9]]) (FlatMV [1; 2; 3]) false
       = inr (BlockedMV vv1, steps1)
       /\ Apply (SetParameters (param_Damping_factor smoother)
                   (Z.of_nat 2) smoother)
            (BlockedMV vv1) (FlatMV [1; 2; 3]) false
          = inr (BlockedMV vv2, steps2)
       /\ Apply (SetParameters (param_Damping_factor smoother)
                   (Z.of_nat (1 + 2)) smoother)
            (BlockedMV [[7; 8]; [9]]) (FlatMV [1; 2; 3]) false
          = inr (BlockedMV vv2, steps).
Proof.
  split; [reflexivity|].
  apply (Apply_sweeps_add smoother operator extractor extractor
           [[7; 8]; [9]] (FlatMV [1; 2; 3]) 1 2).
  reflexivity.
Defined.

Lemma Apply_zero_guess_is_a_shortcut_witness :
  configured (SetParameters 2 2 smoother)
  = Some (operator, extractor, extractor)
  /\ reconcilable operator (FlatMV [7; 8; 9]) = true
  /\ first_residual operator (FlatMV [7; 8; 9]) (FlatMV [1; 2; 3]) true
     = first_residual operator (FlatMV [7; 8; 9]) (FlatMV [1; 2; 3]) false
  /\ exists X' steps steps',
       Apply (SetParameters 2 2 smoother) (FlatMV [7; 8; 9])
         (FlatMV [1; 2; 3]) true = inr (X', steps)
       /\ Apply (SetParameters 2 2 smoother) (zero_reset (FlatMV [7; 8; 9]))
            (FlatMV [1; 2; 3]) false = inr (X', steps').
Proof.
  do 3 (split; [reflexivity|]).
  apply (Apply_zero_guess_is_a_shortcut (SetParameters 2 2 smoother)
           operator extractor extractor (FlatMV [7; 8; 9])
           (FlatMV [1; 2; 3])); reflexivity.
Defined.

End FurtherRuns.
